(** * cp-toolkit: the header inliner ([inliner.py])

    A shallow embedding of the recursive header inliner, the comment
    stripper, the whitespace minifier and the renderer of [inliner.py],
    together with the properties stated for them.

    Python values are modelled as follows.
    - [str] is a sequence of Unicode code points: [list N].
    - [seen_files], a [set] of absolute paths that every recursive call
      shares, is a [gset str] threaded through the calls.
    - The file system is a finite map from the path handed to [open] to
      what [open]/[read] yields; a file that can be opened under several
      paths is in the map under each of them.  [os.path] is an
      interface.
    - [print] and a successful [open] append an event to a trace.
    - An exception is a distinguished outcome. *)

From Stdlib Require Import Ascii String.
From stdpp Require Import base numbers list gmap sets.

Local Open Scope list_scope.

(** ** Python strings *)

Abbreviation str := (list N).

(** An ASCII literal as a [str]. *)
Definition lit (s : string) : str :=
  List.map N_of_ascii (list_ascii_of_string s).

Arguments lit : simpl never.

Definition LF : N := 10%N.
Definition CR : N := 13%N.
Definition SP : N := 32%N.
Definition DQ : N := 34%N.    (* the double quote *)
Definition HASH : N := 35%N.
Definition STAR : N := 42%N.
Definition SLASH : N := 47%N.

(** [str.isspace] on one code point; it is also what [\s] matches in a
    [str] pattern and what [str.strip] removes. *)
Definition isspace (c : N) : bool :=
  (((9 <=? c) && (c <=? 13)) || ((28 <=? c) && (c <=? 32))
   || (c =? 133) || (c =? 160) || (c =? 5760)
   || ((8192 <=? c) && (c <=? 8202))
   || (c =? 8232) || (c =? 8233) || (c =? 8239) || (c =? 8287)
   || (c =? 12288))%N.

(** The line boundaries of [str.splitlines]. *)
Definition is_linebreak (c : N) : bool :=
  (((10 <=? c) && (c <=? 13)) || ((28 <=? c) && (c <=? 30))
   || (c =? 133) || (c =? 8232) || (c =? 8233))%N.

Fixpoint str_eqb (a b : str) : bool :=
  match a, b with
  | [], [] => true
  | x :: a', y :: b' => (x =? y)%N && str_eqb a' b'
  | _, _ => false
  end.

(** [s.startswith(p)] *)
Fixpoint startswith (s p : str) {struct p} : bool :=
  match p, s with
  | [], _ => true
  | a :: p', b :: s' => (a =? b)%N && startswith s' p'
  | _ :: _, [] => false
  end.

(** [s.endswith(p)] *)
Definition endswith (s p : str) : bool := startswith (rev s) (rev p).

Fixpoint drop_while (f : N -> bool) (s : str) : str :=
  match s with
  | c :: s' => if f c then drop_while f s' else s
  | [] => []
  end.

Fixpoint take_while (f : N -> bool) (s : str) : str :=
  match s with
  | c :: s' => if f c then c :: take_while f s' else []
  | [] => []
  end.

Definition lstrip (s : str) : str := drop_while isspace s.
Definition rstrip (s : str) : str := rev (drop_while isspace (rev s)).

(** [s.strip()] *)
Definition strip (s : str) : str := rstrip (lstrip s).

(** [sep.join(parts)] *)
Fixpoint join (sep : str) (parts : list str) : str :=
  match parts with
  | [] => []
  | x :: rest =>
      match rest with
      | [] => x
      | _ :: _ => x ++ sep ++ join sep rest
      end
  end.

(** [s.splitlines()]: the text is cut at every line boundary, [\r\n]
    counts as one boundary, the boundaries are not kept, and no empty
    last line is produced when the text ends in a boundary. *)
Fixpoint splitlines (s : str) : list str :=
  match s with
  | [] => []
  | c :: s' =>
      if is_linebreak c then
        match s' with
        | d :: s'' =>
            if (c =? CR)%N && (d =? LF)%N then [] :: splitlines s''
            else [] :: splitlines s'
        | [] => [[]]
        end
      else
        match splitlines s' with
        | [] => [[c]]
        | l :: ls => (c :: l) :: ls
        end
  end.

(** [for line in infile]: the lines of a text file, each with its
    terminating [\n] (the last one may lack it). *)
Fixpoint file_lines (s : str) : list str :=
  match s with
  | [] => []
  | c :: s' =>
      if (c =? LF)%N then [c] :: file_lines s'
      else
        match file_lines s' with
        | [] => [[c]]
        | l :: ls => (c :: l) :: ls
        end
  end.

(** [s.split(sep)] for a separator of one character. *)
Fixpoint split_on (sep : N) (s : str) : list str :=
  match s with
  | [] => [[]]
  | c :: s' =>
      if (c =? sep)%N then [] :: split_on sep s'
      else
        match split_on sep s' with
        | [] => [[c]]
        | l :: ls => (c :: l) :: ls
        end
  end.

(** The text with every whitespace character deleted. *)
Definition remove_ws (s : str) : str := List.filter (fun c => negb (isspace c)) s.

(** [s.split()]: the maximal runs of non-whitespace characters. *)
Fixpoint words_aux (cur : str) (s : str) : list str :=
  match s with
  | [] => match cur with [] => [] | _ => [rev cur] end
  | c :: s' =>
      if isspace c then
        match cur with
        | [] => words_aux [] s'
        | _ => rev cur :: words_aux [] s'
        end
      else words_aux (c :: cur) s'
  end.
Definition words (s : str) : list str := words_aux [] s.

(** ** Regular-expression substitution

    [re.sub(pattern, repl, s)] scans [s] from the left.  At each
    position it tries the pattern; on a match the replacement is emitted
    and the scan resumes after the match, otherwise the character is
    copied.  None of the patterns of [inliner.py] matches the empty
    string.  A pattern is given by its matcher at the head of a text:
    the replacement and the text that remains after the match. *)

Definition matcher : Type := str -> option (str * str).

Fixpoint re_sub_fuel (m : matcher) (fuel : nat) (s : str) : str :=
  match fuel with
  | O => s
  | S n =>
      match m s with
      | Some (repl, rest) => repl ++ re_sub_fuel m n rest
      | None =>
          match s with
          | [] => []
          | c :: s' => c :: re_sub_fuel m n s'
          end
      end
  end.

Definition re_sub (m : matcher) (s : str) : str :=
  re_sub_fuel m (S (length s)) s.

(** The text after the first [*/] of [s]. *)
Fixpoint after_close (s : str) : option str :=
  match s with
  | [] => None
  | _ :: s' =>
      if startswith s [STAR; SLASH] then Some (drop 2 s) else after_close s'
  end.

(** [/\*.*?\*/] with [re.DOTALL], replaced by the empty string. *)
Definition block_comment : matcher := fun s =>
  if startswith s [SLASH; STAR] then
    match after_close (drop 2 s) with
    | Some rest => Some ([], rest)
    | None => None
    end
  else None.

(** [//.*], replaced by the empty string; [.] matches all but [\n]. *)
Definition line_comment : matcher := fun s =>
  if startswith s [SLASH; SLASH] then
    Some ([], drop_while (fun c => negb (c =? LF)%N) (drop 2 s))
  else None.

(** [\s+], replaced by one space. *)
Definition ws_run : matcher := fun s =>
  match s with
  | c :: s' => if isspace c then Some ([SP], drop_while isspace s') else None
  | [] => None
  end.

Definition is_punct (c : N) : bool :=
  existsb (N.eqb c) (lit ";{}(),<>=[]").

(** [\s*([;{}(),<>=\[\]])\s*], replaced by group 1. *)
Definition tight_punct : matcher := fun s =>
  match drop_while isspace s with
  | c :: s' => if is_punct c then Some ([c], drop_while isspace s') else None
  | [] => None
  end.

Definition strip_comments (content : str) : str :=
  let content := re_sub block_comment content in
  let content := re_sub line_comment content in
  content.

Definition minify_cpp_line (line : str) : str :=
  let minified := re_sub ws_run line in
  let minified := re_sub tight_punct minified in
  minified.

(** *** The include patterns *)

Definition include_prefix : str := lit "#include " ++ [DQ].

(** A non-empty run of characters other than the double quote, closed
    by a double quote, at the head of [s]: the run (group 1). *)
Definition quoted_name (s : str) : option str :=
  let name := take_while (fun c => negb (c =? DQ)%N) s in
  match name, drop (length name) s with
  | _ :: _, _ :: _ => Some name
  | _, _ => None
  end.

(** The pattern [#include DQ([^DQ]+)DQ] at the head of [s] (DQ stands
    for the double quote): group 1. *)
Definition include_at (s : str) : option str :=
  if startswith s include_prefix
  then quoted_name (drop (length include_prefix) s)
  else None.

(** [re.search] of [^\s*#include DQ([^DQ]+)DQ] in [line]: group 1 of
    the match, which can only start at the head of [line]. *)
Definition match_local_include (line : str) : option str :=
  include_at (drop_while isspace line).

(** [re.search] of [#include DQ([^DQ]+)DQ] in [s]: group 1 of the
    leftmost match. *)
Fixpoint search_include (s : str) : option str :=
  match include_at s with
  | Some name => Some name
  | None =>
      match s with
      | [] => None
      | _ :: s' => search_include s'
      end
  end.

(** ** The environment: [os.path], the files, the trace *)

(** What [open(path, 'r')] followed by [read()] yields: the decoded
    text, or an exception other than [FileNotFoundError] with its
    message.  Such an exception comes from a path that exists (a
    directory, a file without read permission) and also from one that
    does not: when a component of the path is a regular file, [open]
    raises [NotADirectoryError].  For a path that is not in the map
    [open] raises [FileNotFoundError]: no such file or directory. *)
Inductive file : Type :=
  | Text (content : str)
  | Unreadable (e : str).

Class World : Type := {
  abspath : str -> str;
  dirname : str -> str;
  basename : str -> str;
  path_join : str -> str -> str;
  files : gmap str file
}.

(** The observable effects: a line printed to standard output, and a
    file opened and read. *)
Inductive event : Type :=
  | Print (msg : str)
  | Open (path : str).

(** The state shared by the calls of one recursive traversal. *)
Record state : Type := {
  seen_files : gset str;
  trace : list event
}.

(** The outcome of a call: it returns, an exception propagates, or the
    model ran out of fuel. *)
Inductive outcome (A : Type) : Type :=
  | Return (a : A) (st : state)
  | Raise (e : str) (st : state)
  | NoFuel.
Arguments Return {A} a st.
Arguments Raise {A} e st.
Arguments NoFuel {A}.

Definition print (msg : str) (st : state) : state :=
  {| seen_files := seen_files st; trace := trace st ++ [Print msg] |}.

Definition opened (path : str) (st : state) : state :=
  {| seen_files := seen_files st; trace := trace st ++ [Open path] |}.

Definition add_seen (path : str) (st : state) : state :=
  {| seen_files := {[path]} ∪ seen_files st; trace := trace st |}.

Definition pragma_once : str := lit "#pragma once".

Definition msg_nested (included_header_name : str) : str :=
  lit "        -> Found and processing nested header: '"
  ++ included_header_name ++ lit "'".

Definition msg_not_found (header_path : str) : str :=
  lit "    [WARNING] Header not found: '" ++ header_path
  ++ lit "'. Skipping.".

(** ** The header resolver: [recursively_inline] *)

Section Resolver.
Context {W : World}.

(** The body of [for line in content.splitlines()], with the recursive
    call as [rec]. *)
Fixpoint inline_lines (rec : str -> state -> outcome str)
    (header_dir : str) (lines : list str) (processed_lines : list str)
    (st : state) : outcome (list str) :=
  match lines with
  | [] => Return processed_lines st
  | line :: rest =>
      match match_local_include line with
      | Some included_header_name =>
          let next_header_path := path_join header_dir included_header_name in
          let st := print (msg_nested included_header_name) st in
          match rec next_header_path st with
          | Return inlined_content st =>
              inline_lines rec header_dir rest
                (processed_lines ++ [inlined_content]) st
          | Raise e st => Raise e st
          | NoFuel => NoFuel
          end
      | None =>
          if str_eqb (strip line) pragma_once
          then inline_lines rec header_dir rest processed_lines st
          else inline_lines rec header_dir rest (processed_lines ++ [line]) st
      end
  end.

(** [recursively_inline(header_path, seen_files)].  Python's recursion
    is not structural, so the model counts the nesting of calls down
    from [fuel].  The recursion limit of the interpreter, which turns a
    very deep nesting into an exception, is not modelled. *)
Fixpoint recursively_inline_fuel (fuel : nat) (header_path : str)
    (st : state) : outcome str :=
  match fuel with
  | O => NoFuel
  | S fuel' =>
      let abs_header_path := abspath header_path in
      if decide (abs_header_path ∈ seen_files st) then Return [] st
      else
        let st := add_seen abs_header_path st in
        match files !! abs_header_path with
        | None => Return [] (print (msg_not_found header_path) st)
        | Some (Unreadable e) => Raise e st
        | Some (Text content) =>
            let st := opened abs_header_path st in
            let header_dir := dirname abs_header_path in
            match inline_lines (recursively_inline_fuel fuel') header_dir
                    (splitlines content) [] st with
            | Return processed_lines st => Return (join [LF] processed_lines) st
            | Raise e st => Raise e st
            | NoFuel => NoFuel
            end
        end
  end.

(** Every nested call that opens a file has put a new existing path
    into [seen_files], so the nesting never exceeds the number of files
    (see [recursively_inline_fuel_enough]). *)
Definition recursively_inline (header_path : str) (st : state) : outcome str :=
  recursively_inline_fuel (S (size files)) header_path st.

End Resolver.

(** ** The content transformer (the rendering part of [process_file]) *)

(** The loop that routes every non-blank trimmed line to [directives]
    or to [code_lines]. *)
Fixpoint classify (lines : list str) (directives code_lines : list str)
    : list str * list str :=
  match lines with
  | [] => (directives, code_lines)
  | ln :: rest =>
      let stripped_ln := strip ln in
      match stripped_ln with
      | [] => classify rest directives code_lines
      | _ :: _ =>
          if startswith stripped_ln [HASH]
          then classify rest (directives ++ [stripped_ln]) code_lines
          else classify rest directives (code_lines ++ [stripped_ln])
      end
  end.

(** The packing loop of the [multiline] style, on the pair
    ([wrapped_code], [current_line]). *)
Fixpoint wrap (max_chars : Z) (parts : list str)
    (wrapped_code current_line : str) : str * str :=
  match parts with
  | [] => (wrapped_code, current_line)
  | part :: rest =>
      match current_line with
      | [] => wrap max_chars rest wrapped_code part
      | _ :: _ =>
          if (Z.of_nat (length current_line) + Z.of_nat (length part) + 1
              <=? max_chars)%Z
          then wrap max_chars rest wrapped_code (current_line ++ [SP] ++ part)
          else wrap max_chars rest (wrapped_code ++ current_line ++ [LF]) part
      end
  end.

Definition wrapped (max_chars : Z) (minified_code : list str) : str :=
  let '(wrapped_code, current_line) := wrap max_chars minified_code [] [] in
  match current_line with
  | [] => wrapped_code
  | _ :: _ => wrapped_code ++ current_line
  end.

(** The code block that is appended after the directives. *)
Definition code_block (minify_style : str) (max_chars : Z)
    (code_lines : list str) : str :=
  if str_eqb minify_style (lit "single_line") then
    join [SP] (List.map minify_cpp_line code_lines)
  else if str_eqb minify_style (lit "multiline") then
    wrapped max_chars (List.map minify_cpp_line code_lines)
  else
    join [LF] code_lines.

Definition classified (flattened_content : str) : list str * list str :=
  classify (splitlines (strip_comments flattened_content)) [] [].

(** [final_content], as it stands before [final_content.strip()]. *)
Definition final_content (minify_style : str) (max_chars : Z)
    (flattened_content : str) : str :=
  let '(directives, code_lines) := classified flattened_content in
  let final_content := join [LF] directives in
  match code_lines with
  | [] => final_content
  | _ :: _ =>
      final_content ++ [LF] ++ code_block minify_style max_chars code_lines
  end.

(** What is written between the two markers: [final_content.strip()]. *)
Definition rendered (minify_style : str) (max_chars : Z)
    (flattened_content : str) : str :=
  strip (final_content minify_style max_chars flattened_content).

(** ** The orchestrator: the loop of [process_file]

    The model covers the body of the [with] block of [process_file]:
    the loop over the lines read from the opened input, which writes
    to the opened output.  Creating the output directory and opening
    the two files are outside it, and so is what opening the output
    for writing does to a file that the run reads: the output file is
    taken to be none of the files read. *)

Record config : Type := {
  output_dir : str;
  minify_style : str;
  multiline_max_chars : Z
}.

(** How the run ends: all lines written, or [sys.exit(1)]. *)
Inductive run : Type :=
  | Completed (outfile : str) (tr : list event)
  | Exited (outfile : str) (tr : list event).

Definition marked_suffix : str := lit "//@".

Definition start_marker (header_name : str) : str :=
  lit "// --- Start of inlined file: " ++ header_name ++ lit " ---" ++ [LF].

Definition end_marker (header_name : str) : str :=
  lit "// --- End of inlined file: " ++ header_name ++ lit " ---" ++ [LF].

Definition msg_inlining (header_name minify_style : str) : str :=
  lit "    -> Recursively inlining '" ++ header_name
  ++ lit "' with style: '" ++ minify_style ++ lit "'...".

(** U+274C, the mark of the error messages. *)
Definition CROSS : N := 10060%N.

Definition msg_unexpected (e : str) : str :=
  [CROSS] ++ lit " An unexpected error occurred: " ++ e.

Section Orchestrator.
Context {W : World}.

(** The body of [for line in infile], on the text written so far and
    the trace. *)
Definition process_line (source_directory : str) (cfg : config)
    (line : str) (outfile : str) (tr : list event) : run :=
  let stripped_line := strip line in
  if startswith stripped_line include_prefix
     && endswith stripped_line marked_suffix
  then
    match search_include stripped_line with
    | None => Completed (outfile ++ line) tr
    | Some header_name =>
        let header_path := path_join source_directory header_name in
        let tr := tr ++ [Print (msg_inlining header_name (minify_style cfg))] in
        match recursively_inline header_path
                {| seen_files := ∅; trace := tr |} with
        | Return flattened_content st =>
            Completed
              (outfile ++ start_marker header_name
               ++ (rendered (minify_style cfg) (multiline_max_chars cfg)
                     flattened_content ++ [LF])
               ++ end_marker header_name)
              (trace st)
        | Raise e st =>
            Exited outfile (trace st ++ [Print (msg_unexpected e)])
        | NoFuel => Exited outfile tr   (* never: [recursively_inline_post] *)
        end
    end
  else Completed (outfile ++ line) tr.

(** [for line in infile: ...], on the lines as the text-mode file
    yields them, until the lines end or the run exits. *)
Fixpoint process_lines (source_directory : str) (cfg : config)
    (lines : list str) (outfile : str) (tr : list event) : run :=
  match lines with
  | [] => Completed outfile tr
  | line :: rest =>
      match process_line source_directory cfg line outfile tr with
      | Completed outfile tr => process_lines source_directory cfg rest outfile tr
      | Exited outfile tr => Exited outfile tr
      end
  end.

End Orchestrator.

(** ** A POSIX instance of [os.path], for the examples *)

Module Posix.

(** [posixpath.join(a, b)] *)
Definition join2 (a b : str) : str :=
  if startswith b [SLASH] then b
  else
    match a with
    | [] => b
    | _ :: _ => if endswith a [SLASH] then a ++ b else a ++ [SLASH] ++ b
    end.

(** [p[:p.rfind('/') + 1]] and [p[p.rfind('/') + 1:]] *)
Definition tail_of (p : str) : str :=
  rev (take_while (fun c => negb (c =? SLASH)%N) (rev p)).
Definition head_of (p : str) : str :=
  take (length p - length (tail_of p)) p.

Definition dirname (p : str) : str :=
  let head := head_of p in
  if forallb (N.eqb SLASH) head then head
  else rev (drop_while (N.eqb SLASH) (rev head)).

Definition basename (p : str) : str := tail_of p.

(** The loop of [posixpath.normpath] over the components. *)
Fixpoint norm_comps (initial_slashes : nat) (comps new_comps : list str)
    : list str :=
  match comps with
  | [] => new_comps
  | comp :: rest =>
      if str_eqb comp [] || str_eqb comp (lit ".")
      then norm_comps initial_slashes rest new_comps
      else if negb (str_eqb comp (lit ".."))
              || ((initial_slashes =? 0)%nat
                  && match new_comps with [] => true | _ => false end)
              || match last new_comps with
                 | Some c => str_eqb c (lit "..")
                 | None => false
                 end
      then norm_comps initial_slashes rest (new_comps ++ [comp])
      else norm_comps initial_slashes rest (removelast new_comps)
  end.

Definition normpath (path : str) : str :=
  match path with
  | [] => lit "."
  | _ :: _ =>
      let initial_slashes :=
        if startswith path [SLASH] then
          if startswith path [SLASH; SLASH]
             && negb (startswith path [SLASH; SLASH; SLASH])
          then 2%nat else 1%nat
        else 0%nat in
      let new_comps := norm_comps initial_slashes (split_on SLASH path) [] in
      let path := repeat SLASH initial_slashes ++ join [SLASH] new_comps in
      match path with
      | [] => lit "."
      | _ :: _ => path
      end
  end.

(** [os.path.abspath(path)] in the working directory [cwd]. *)
Definition abspath (cwd : str) (path : str) : str :=
  normpath (if startswith path [SLASH] then path else join2 cwd path).

Definition world (cwd : str) (fs : gmap str file) : World :=
  Build_World (abspath cwd) dirname basename join2 fs.

End Posix.

(** ** A small tree of headers, for the examples

    [main.cpp] marks [a.h], a missing header and an include with an
    empty name; [a.h] includes [b.h] and [c.h], which both include
    [d.h], which includes [a.h] again; [leaf.h] includes no local
    header. *)

Module Demo.

Definition inc (name : string) : str := include_prefix ++ lit name ++ [DQ].

Definition a_h : str :=
  join [LF] [ lit "#pragma once"; inc "b.h";
              lit "  " ++ inc "c.h" ++ lit " // second"; lit "int a;" ].
Definition b_h : str :=
  join [LF] [ lit "#pragma once"; inc "d.h"; lit "int b;" ].
Definition c_h : str :=
  join [LF] [ inc "d.h"; lit "int c;" ].
Definition d_h : str :=
  join [LF] [ lit "  #pragma once  "; inc "a.h"; lit "int d = 1;  // one";
              lit "#define D 1" ].
Definition leaf_h : str :=
  join [LF] [ lit "#pragma once"; lit "  int x = 1;"; [];
              lit "#include <vector>"; lit "#pragma once // kept" ].
Definition main_cpp : str :=
  join [LF] [ lit "int main();"; inc "a.h" ++ lit " //@";
              inc "missing.h" ++ lit " //@"; inc "" ++ lit " //@";
              inc "leaf.h"; [] ].

Definition fs : gmap str file :=
  list_to_map
    [ (lit "/w/main.cpp", Text main_cpp); (lit "/w/a.h", Text a_h);
      (lit "/w/b.h", Text b_h); (lit "/w/c.h", Text c_h);
      (lit "/w/d.h", Text d_h); (lit "/w/leaf.h", Text leaf_h) ].

Definition world : World := Posix.world (lit "/w") fs.

Definition st0 : state := {| seen_files := ∅; trace := [] |}.

Definition cfg (style : string) : config :=
  {| output_dir := lit "build"; minify_style := lit style;
     multiline_max_chars := 20 |}.

End Demo.

(** * The vocabulary of the properties *)

(** The files opened along a trace, in order. *)
Fixpoint opens (tr : list event) : list str :=
  match tr with
  | [] => []
  | Open path :: tr' => path :: opens tr'
  | Print _ :: tr' => opens tr'
  end.

Definition is_local_include (line : str) : bool :=
  match match_local_include line with
  | Some _ => true
  | None => false
  end.

Definition is_pragma_once (line : str) : bool :=
  str_eqb (strip line) pragma_once.

Section ResolverVocabulary.
Context {W : World}.

(** What a traversal from [st] to [st'] has done: the visited set has
    only grown, the trace has only been extended, and the files opened
    meanwhile are pairwise distinct and are exactly the readable files
    that entered the visited set. *)
Definition extends (st st' : state) : Prop :=
  seen_files st ⊆ seen_files st' /\
  exists ev,
    trace st' = trace st ++ ev /\
    NoDup (opens ev) /\
    forall q, q ∈ opens ev <->
      (q ∈ seen_files st' /\ (q ∉ seen_files st) /\
       exists content, files !! q = Some (Text content)).

(** The number of existing paths not yet visited: it bounds the
    nesting of the calls still to come. *)
Definition unseen (st : state) : nat := size (dom files ∖ seen_files st).

Definition post {A : Type} (st : state) (o : outcome A) : Prop :=
  match o with
  | Return _ st' => extends st st'
  | Raise _ st' => extends st st'
  | NoFuel => False
  end.

End ResolverVocabulary.

(** The state in which a call ends, by a return or by an exception. *)
Definition final_state {A : Type} (o : outcome A) : option state :=
  match o with
  | Return _ st' => Some st'
  | Raise _ st' => Some st'
  | NoFuel => None
  end.

(** ** Patterns *)

(** A matcher consumes at least one character. *)
Definition shrinks (m : matcher) : Prop :=
  forall s repl rest, m s = Some (repl, rest) -> (length rest < length s)%nat.

(** The pattern matches at some position of [s]. *)
Fixpoint matches_somewhere (m : matcher) (s : str) : bool :=
  match m s with
  | Some _ => true
  | None =>
      match s with
      | [] => false
      | _ :: s' => matches_somewhere m s'
      end
  end.

(** ** Trimmed texts *)

Definition head_ok (s : str) : bool :=
  match s with
  | c :: _ => negb (isspace c)
  | [] => false
  end.

Definition last_ok (s : str) : bool := head_ok (rev s).

(** A non-empty text that neither starts nor ends with whitespace. *)
Definition tight (s : str) : Prop := head_ok s = true /\ last_ok s = true.

Definition no_lf (s : str) : bool := forallb (fun c => negb (c =? LF)%N) s.

(** ** Groups of fragments *)

(** The packing loop on groups of fragments: [packed] holds the groups of
    the lines already flushed, [cur] the group of the current line. *)
Fixpoint pack (max_chars : Z) (parts : list str)
    (packed : list (list str)) (cur : list str)
    : list (list str) * list str :=
  match parts with
  | [] => (packed, cur)
  | part :: rest =>
      match cur with
      | [] => pack max_chars rest packed [part]
      | _ :: _ =>
          if (Z.of_nat (length (join [SP] cur)) + Z.of_nat (length part) + 1
              <=? max_chars)%Z
          then pack max_chars rest packed (cur ++ [part])
          else pack max_chars rest (packed ++ [cur]) [part]
      end
  end.

Definition flushed (packed : list (list str)) : str :=
  concat (List.map (fun group => join [SP] group ++ [LF]) packed).

(** A line is within the width, or it is one fragment that alone
    exceeds the width. *)
Definition fits (max_chars : Z) (group : list str) : Prop :=
  (Z.of_nat (length (join [SP] group)) <= max_chars)%Z \/
  exists part, group = [part] /\ (max_chars < Z.of_nat (length part))%Z.

(** ** Lines *)

(** The trimmed non-blank lines of a text, in order. *)
Definition nonblank_lines (text : str) : list str :=
  List.filter (fun ln => negb (str_eqb ln []))
    (List.map strip (splitlines text)).

Definition is_directive (ln : str) : bool := startswith ln [HASH].

(** ** Runs on the example tree *)

Module DemoRuns.

Definition a_out : outcome str :=
  Eval vm_compute in recursively_inline (W:=Demo.world) (lit "a.h") Demo.st0.

Definition a_text : str :=
  match a_out with Return text _ => text | _ => [] end.

Definition a_state : state :=
  match a_out with Return _ st' => st' | _ => Demo.st0 end.

End DemoRuns.

(** ** The example of the specification *)

Module Examples.

(** The example of the specification: [a.cpp] marks [b.h]. *)
Definition b_h : str :=
  join [LF] [ lit "#pragma once"; lit "int x=1;  // comment";
              lit "#define FOO 1" ].

Definition a_cpp : str :=
  join [LF] [ lit "int main() {}"; Demo.inc "b.h" ++ lit " //@"; [] ].

Definition world : World :=
  Posix.world (lit "/w")
    (list_to_map [ (lit "/w/a.cpp", Text a_cpp); (lit "/w/b.h", Text b_h) ]).

Definition output (r : run) : str :=
  match r with
  | Completed outfile _ => outfile
  | Exited outfile _ => outfile
  end.

End Examples.

(** * Further code and vocabulary *)

(** ** [find_config_path] *)

Definition local_config : str := lit "inliner_config.json".

Definition msg_config_missing (config_arg : str) : str :=
  lit "Warning: Specified config file '" ++ config_arg ++ lit "' not found.".

Section ConfigPath.
Context {W : World}.
(** [os.path.exists] and [os.path.expanduser]. *)
Variable path_exists : str -> bool.
Variable expanduser : str -> str.

(** [find_config_path(config_arg)]: the path found, if any, and the
    lines printed.  [config_arg] is [None] or a string; both [None]
    and the empty string are false in [if config_arg:]. *)
Definition find_config_path (config_arg : option str)
    : option str * list str :=
  match config_arg with
  | Some (c :: arg) =>
      let config_arg := c :: arg in
      if path_exists config_arg then (Some config_arg, [])
      else (None, [msg_config_missing config_arg])
  | _ =>
      let local_path := local_config in
      let global_dir := expanduser (lit "~/.config/inliner") in
      let global_path := path_join global_dir (lit "config.json") in
      if path_exists local_path then (Some local_path, [])
      else if path_exists global_path then (Some global_path, [])
      else (None, [])
  end.

End ConfigPath.

(** ** Marked lines and runs *)

(** The test of the loop of [process_file] for a marked include. *)
Definition is_marked (line : str) : bool :=
  startswith (strip line) include_prefix && endswith (strip line) marked_suffix.

(** A run that happens after [outfile] was written and [tr] was
    traced. *)
Definition after (outfile : str) (tr : list event) (r : run) : run :=
  match r with
  | Completed outfile' tr' => Completed (outfile ++ outfile') (tr ++ tr')
  | Exited outfile' tr' => Exited (outfile ++ outfile') (tr ++ tr')
  end.

(** A state and an outcome with the events [tr] put before theirs. *)
Definition traced (tr : list event) (st : state) : state :=
  {| seen_files := seen_files st; trace := tr ++ trace st |}.

Definition traced_outcome {A : Type} (tr : list event) (o : outcome A)
    : outcome A :=
  match o with
  | Return a st => Return a (traced tr st)
  | Raise e st => Raise e (traced tr st)
  | NoFuel => NoFuel
  end.

(** ** Shapes of minified lines *)

Definition head_space (s : str) : bool :=
  match s with
  | c :: _ => isspace c
  | [] => false
  end.

Definition head_punct (s : str) : bool :=
  match s with
  | c :: _ => is_punct c
  | [] => false
  end.

(** Every whitespace character is a space and no two are adjacent. *)
Fixpoint single_spaced (s : str) : bool :=
  match s with
  | [] => true
  | c :: s' =>
      (if isspace c then (c =? SP)%N && negb (head_space s') else true)
      && single_spaced s'
  end.

(** No whitespace next to a punctuation character of [is_punct]. *)
Fixpoint punct_tight (s : str) : bool :=
  match s with
  | [] => true
  | c :: s' =>
      negb (isspace c && head_punct s') && negb (is_punct c && head_space s')
      && punct_tight s'
  end.

(** ** Lines of the flattened text *)

(** A line that is neither a compile-once pragma nor a local include. *)
Definition clean_line (line : str) : bool :=
  negb (is_pragma_once line) && negb (is_local_include line).

(** The lines of a text, cut at the newlines, are all clean. *)
Definition clean (text : str) : Prop :=
  forallb clean_line (split_on LF text) = true.

(** ** A tree with a header that cannot be read *)

Module Broken.

Definition main_cpp : str :=
  join [LF] [ lit "int first;"; Demo.inc "dir.h" ++ lit " //@";
              lit "int last;"; [] ].

Definition fs : gmap str file :=
  list_to_map
    [ (lit "/w/main.cpp", Text main_cpp);
      (lit "/w/dir.h", Unreadable (lit "[Errno 21] Is a directory: '/w/dir.h'")) ].

Definition world : World := Posix.world (lit "/w") fs.

End Broken.

(** ** One marked include of the example tree *)

Module MarkedRun.

Definition line : str := Demo.inc "a.h" ++ lit " //@" ++ [LF].

Definition out : outcome str :=
  Eval vm_compute in
    recursively_inline (W:=Demo.world)
      (path_join (World:=Demo.world) (lit "/w") (lit "a.h"))
      {| seen_files := ∅;
         trace := [Print (msg_inlining (lit "a.h") (lit "none"))] |}.

Definition text : str :=
  match out with Return text _ => text | _ => [] end.

Definition final : state :=
  match out with Return _ st' => st' | _ => Demo.st0 end.

End MarkedRun.

(** ** The lines of a flattened text and the headers they come from *)

(** A line of a flattened text: a line of the header opened at the
    path [origin], or the empty line left by an include that brought
    no line (a header met again, a missing header, a header without a
    line to keep). *)
Inductive leaf : Type :=
  | Own (origin : str) (line : str)
  | Gap.

Definition leaf_text (lf : leaf) : str :=
  match lf with
  | Own _ line => line
  | Gap => []
  end.

(** The lines that come from the header at [q], in order. *)
Fixpoint own_lines (q : str) (leaves : list leaf) : list str :=
  match leaves with
  | [] => []
  | Own origin line :: rest =>
      if decide (origin = q) then line :: own_lines q rest
      else own_lines q rest
  | Gap :: rest => own_lines q rest
  end.

(** The lines that inlining keeps as they are: neither a local include
    nor a compile-once pragma. *)
Definition kept_of (lines : list str) : list str :=
  List.filter
    (fun line => negb (is_local_include line) && negb (is_pragma_once line))
    lines.

(** The kept lines of the file at the path [q], if it can be read. *)
Definition kept_lines {W : World} (q : str) : list str :=
  match files !! q with
  | Some (Text content) => kept_of (splitlines content)
  | _ => []
  end.

(** A text returned by a call that changes the state [st] into [st'] is
    [flat] when it is the newline-joined list of lines of which those
    that come from a header are the kept lines of that header, once and
    in order, if the call opened the header, and none otherwise. *)
Definition flat {W : World} (st st' : state) (text : str) : Prop :=
  exists ev leaves,
    trace st' = trace st ++ ev /\
    text = join [LF] (List.map leaf_text leaves) /\
    forall q,
      own_lines q leaves
      = if decide (q ∈ opens ev) then kept_lines q else [].

(** ** Include trees

    What one call of [recursively_inline] goes through: a line passed
    on, an include that gives the empty text (its [target], the absolute
    path, was met before or is no file), or an include that is replaced
    by the header at [path], whose lines make the [body]. *)
#[warnings="-register-all"] Inductive tree : Type :=
  | Kept (line : str)
  | Empty (target : str)
  | Header (path : str) (body : list tree).

Fixpoint tree_text (t : tree) : str :=
  match t with
  | Kept line => line
  | Empty _ => []
  | Header _ body => join [LF] (List.map tree_text body)
  end.

Definition target (t : tree) : option str :=
  match t with
  | Kept _ => None
  | Empty q => Some q
  | Header q _ => Some q
  end.

(** The includes of a tree in the order of the traversal, each with
    [true] if the header is inlined there and [false] if the include
    gives the empty text. *)
Fixpoint visits (t : tree) : list (str * bool) :=
  match t with
  | Kept _ => []
  | Empty q => [(q, false)]
  | Header q body => (q, true) :: concat (List.map visits body)
  end.

Definition visited (vs : list (str * bool)) : gset str :=
  list_to_set (List.map fst vs).

Definition inlined (vs : list (str * bool)) : list str :=
  List.map fst (List.filter snd vs).

Definition readable {W : World} (q : str) : bool :=
  match files !! q with
  | Some (Text _) => true
  | _ => false
  end.

(** The first occurrence wins: a header is inlined at a visit exactly
    when its path is a readable file and is neither in [seen] nor the
    target of an earlier visit. *)
Fixpoint first_wins {W : World} (seen : gset str)
    (vs : list (str * bool)) : bool :=
  match vs with
  | [] => true
  | (q, here) :: rest =>
      eqb here (bool_decide (q ∉ seen) && readable q)
      && first_wins ({[q]} ∪ seen) rest
  end.

(** The lines of a header that leave something in its body: all but
    the compile-once pragmas. *)
Definition passed (lines : list str) : list str :=
  List.filter
    (fun line => is_local_include line || negb (is_pragma_once line)) lines.

(** The tree [t] stands for the line [line] of the header at [q]: a
    local include is a visit of the path it names, taken from the
    directory of [q]; any other line is kept as it is. *)
Definition stands_for {W : World} (q : str) (line : str) (t : tree) : bool :=
  match match_local_include line with
  | Some name =>
      bool_decide (target t = Some (abspath (path_join (dirname q) name)))
  | None =>
      match t with
      | Kept line' => bool_decide (line' = line)
      | _ => false
      end
  end.

Fixpoint aligned {W : World} (q : str) (lines : list str)
    (body : list tree) : bool :=
  match lines, body with
  | [], [] => true
  | line :: lines, t :: body => stands_for q line t && aligned q lines body
  | _, _ => false
  end.

(** The tree follows the files: the body of every inlined header has
    one tree for each passed line of the file, in the order of the
    lines. *)
Fixpoint follows {W : World} (t : tree) : bool :=
  match t with
  | Kept _ | Empty _ => true
  | Header q body =>
      match files !! q with
      | Some (Text content) =>
          aligned q (passed (splitlines content)) body
          && forallb follows body
      | _ => false
      end
  end.

(** The call of [recursively_inline] on [path] that changes [st] into
    [st'] returns the text of an include tree for [path] that follows
    the files, in which the first occurrence wins, and whose visits are
    what the call adds to the visited set. *)
Definition inlined_as {W : World} (path : str) (st st' : state)
    (text : str) : Prop :=
  exists t,
    text = tree_text t /\
    target t = Some (abspath path) /\
    follows t = true /\
    first_wins (seen_files st) (visits t) = true /\
    seen_files st' = seen_files st ∪ visited (visits t).

(** ** Tokens *)

Definition is_word (c : N) : bool := negb (isspace c) && negb (is_punct c).

Definition word_head (s : str) : bool :=
  match s with
  | c :: _ => is_word c
  | [] => false
  end.

(** The tokens of a text: it is cut at whitespace, and each of the
    punctuation characters of [is_punct] is a token of its own. *)
Fixpoint tokens (s : str) : list str :=
  match s with
  | [] => []
  | c :: s' =>
      if isspace c then tokens s'
      else if is_punct c then [c] :: tokens s'
      else if word_head s' then
        match tokens s' with
        | t :: ts => (c :: t) :: ts
        | [] => [[c]]
        end
      else [c] :: tokens s'
  end.

(** ** One file under two absolute paths

    POSIX [normpath] keeps a leading double slash, so [abspath] gives
    [//w/b.h] and [/w/b.h] as two paths, while [open] reads the same
    file under both. *)

Module Spellings.

Definition a_h : str :=
  join [LF] [ Demo.inc "b.h"; Demo.inc "//w/b.h"; lit "int a;" ].
Definition b_h : str :=
  join [LF] [ lit "#pragma once"; lit "int b;" ].
Definition s_h : str :=
  join [LF] [ lit "int s;"; Demo.inc "//w/s.h" ].

Definition fs : gmap str file :=
  list_to_map
    [ (lit "/w/a.h", Text a_h);
      (lit "/w/b.h", Text b_h); (lit "//w/b.h", Text b_h);
      (lit "/w/s.h", Text s_h); (lit "//w/s.h", Text s_h) ].

Definition world : World := Posix.world (lit "/w") fs.

End Spellings.

(** ** A missing header below a regular file

    [a.h] is a regular file, so [a.h/x.h] does not exist, and [open]
    raises [NotADirectoryError] for it. *)

Module NotDir.

Definition fs : gmap str file :=
  list_to_map
    [ (lit "/w/a.h", Text (lit "int a;"));
      (lit "/w/a.h/x.h",
       Unreadable (lit "[Errno 20] Not a directory: '/w/a.h/x.h'")) ].

Definition world : World := Posix.world (lit "/w") fs.

Definition line : str := Demo.inc "a.h/x.h" ++ lit " //@" ++ [LF].

End NotDir.

(** ** An include with trailing text between two includes *)

Module Trailing.

Definition t_h : str :=
  join [LF] [ lit "int before;"; Demo.inc "leaf.h" ++ lit " // first";
              lit "  " ++ Demo.inc "c.h" ++ lit " int trailing = 1; //@";
              Demo.inc "d.h"; lit "int after;" ].

Definition fs : gmap str file := <[ lit "/w/t.h" := Text t_h ]> Demo.fs.

Definition world : World := Posix.world (lit "/w") fs.

Definition t_out : outcome str :=
  Eval vm_compute in recursively_inline (W:=world) (lit "t.h") Demo.st0.

Definition t_text : str :=
  match t_out with Return text _ => text | _ => [] end.

Definition t_state : state :=
  match t_out with Return _ st' => st' | _ => Demo.st0 end.

End Trailing.

(** ** The include tree of the example tree of headers *)

Module DemoTree.

Definition d_tree : tree :=
  Header (lit "/w/d.h")
    [ Empty (lit "/w/a.h"); Kept (lit "int d = 1;  // one");
      Kept (lit "#define D 1") ].

Definition a_tree : tree :=
  Header (lit "/w/a.h")
    [ Header (lit "/w/b.h") [ d_tree; Kept (lit "int b;") ];
      Header (lit "/w/c.h") [ Empty (lit "/w/d.h"); Kept (lit "int c;") ];
      Kept (lit "int a;") ].

End DemoTree.

(** * Properties *)

(** ** Strings *)

Lemma str_eqb_eq (a b : str) : str_eqb a b = true <-> a = b.
Proof.
  revert b; induction a as [|x a IH]; intros [|y b]; simpl.
  - done.
  - split; congruence.
  - split; congruence.
  - rewrite andb_true_iff, N.eqb_eq, IH.
    split; [intros [-> ->]; done | intros [= -> ->]; done].
Qed.

Lemma str_eqb_refl (a : str) : str_eqb a a = true.
Proof. by apply str_eqb_eq. Qed.

Lemma startswith_app (p r : str) : startswith (p ++ r) p = true.
Proof. induction p as [|a p IH]; simpl; [done|]. by rewrite N.eqb_refl. Qed.

Lemma startswith_inv (s p : str) :
  startswith s p = true -> exists r, s = p ++ r.
Proof.
  revert s; induction p as [|a p IH]; intros s; simpl.
  - intros _. by exists s.
  - destruct s as [|b s]; [done|].
    intros [Hab Hs]%andb_prop. apply N.eqb_eq in Hab. subst b.
    destruct (IH _ Hs) as [r ->]. by exists r.
Qed.

Lemma startswith_head (s : str) (c : N) :
  startswith s [c] = true -> exists r, s = c :: r.
Proof. intros H. apply startswith_inv in H. exact H. Qed.

Lemma drop_while_all (f : N -> bool) (ws r : str) :
  forallb f ws = true -> drop_while f (ws ++ r) = drop_while f r.
Proof.
  induction ws as [|c ws IH]; simpl; [done|].
  intros [Hc Hws]%andb_prop. rewrite Hc. by apply IH.
Qed.

Lemma drop_while_head (f : N -> bool) (c : N) (r : str) :
  f c = false -> drop_while f (c :: r) = c :: r.
Proof. intros H. simpl. by rewrite H. Qed.

Lemma take_while_all (f : N -> bool) (a : str) (c : N) (r : str) :
  forallb f a = true -> f c = false -> take_while f (a ++ c :: r) = a.
Proof.
  intros Ha Hc. induction a as [|x a IH]; simpl in *.
  - by rewrite Hc.
  - apply andb_prop in Ha as [Hx Ha]. rewrite Hx. f_equal. by apply IH.
Qed.

Lemma drop_while_suffix (f : N -> bool) (s : str) :
  exists a, s = a ++ drop_while f s /\ forallb f a = true.
Proof.
  induction s as [|c s (a & Hs & Ha)]; simpl.
  - by exists [].
  - destruct (f c) eqn:Hc.
    + exists (c :: a). simpl. rewrite Hc, Ha. split; [by f_equal|done].
    + by exists [].
Qed.

Lemma drop_while_length (f : N -> bool) (s : str) :
  (length (drop_while f s) <= length s)%nat.
Proof.
  induction s as [|c s IH]; simpl; [lia|]. destruct (f c); simpl; lia.
Qed.

(** ** The include patterns *)

Lemma quoted_name_intro (name trailing : str) :
  name <> [] ->
  forallb (fun c => negb (c =? DQ)%N) name = true ->
  quoted_name (name ++ DQ :: trailing) = Some name.
Proof.
  intros Hne Hq. unfold quoted_name. cbv zeta.
  rewrite take_while_all by done.
  destruct name as [|n l]; [done|]. by rewrite drop_app_length.
Qed.

Lemma include_at_intro (name trailing : str) :
  name <> [] ->
  forallb (fun c => negb (c =? DQ)%N) name = true ->
  include_at (include_prefix ++ name ++ DQ :: trailing) = Some name.
Proof.
  intros Hne Hq. unfold include_at.
  rewrite startswith_app, drop_app_length. by apply quoted_name_intro.
Qed.

Lemma match_local_include_intro (ws name trailing : str) :
  forallb isspace ws = true ->
  name <> [] ->
  forallb (fun c => negb (c =? DQ)%N) name = true ->
  match_local_include (ws ++ include_prefix ++ name ++ DQ :: trailing)
  = Some name.
Proof.
  intros Hws Hne Hq. unfold match_local_include.
  rewrite drop_while_all by done.
  change (include_prefix ++ name ++ DQ :: trailing)
    with (HASH :: (lit "include " ++ [DQ]) ++ name ++ DQ :: trailing) at 1.
  rewrite drop_while_head by done.
  by apply (include_at_intro name trailing).
Qed.

Lemma include_at_hash (s : str) (name : str) :
  include_at s = Some name -> exists r, s = HASH :: r.
Proof.
  unfold include_at. destruct (startswith s include_prefix) eqn:H; [|done].
  intros _. apply startswith_inv in H as [r ->]. by eexists.
Qed.

Lemma search_include_no_hash (s : str) :
  forallb (fun c => negb (c =? HASH)%N) s = true -> search_include s = None.
Proof.
  induction s as [|c s IH]; simpl; intros H.
  - done.
  - apply andb_prop in H as [Hc Hs].
    destruct (include_at (c :: s)) eqn:E.
    + apply include_at_hash in E as [r [= -> ->]]. done.
    + by apply IH.
Qed.

(** ** The header resolver *)

Lemma opens_app (a b : list event) : opens (a ++ b) = opens a ++ opens b.
Proof.
  induction a as [|[m|p] a IH]; simpl; [done|done|]. by rewrite IH.
Qed.

Section ResolverProperties.
Context {W : World}.

Lemma extends_refl (st : state) : extends st st.
Proof.
  split; [done|]. exists []. rewrite app_nil_r. simpl.
  split; [done|]. split; [constructor|].
  intros q. split; [by intros ?%elem_of_nil|]. by intros (? & ? & _).
Qed.

Lemma extends_trans (st1 st2 st3 : state) :
  extends st1 st2 -> extends st2 st3 -> extends st1 st3.
Proof.
  intros (Hs1 & ev1 & Ht1 & Hn1 & Ho1) (Hs2 & ev2 & Ht2 & Hn2 & Ho2).
  split; [set_solver|]. exists (ev1 ++ ev2).
  split; [by rewrite Ht2, Ht1, app_assoc|].
  rewrite opens_app. split.
  - apply NoDup_app. split; [done|]. split; [|done].
    intros q Hq1 Hq2. apply Ho1 in Hq1. apply Ho2 in Hq2. tauto.
  - intros q. rewrite elem_of_app, Ho1, Ho2. split.
    + intros [(? & ? & ?)|(? & ? & ?)]; set_solver.
    + intros (H3 & H1 & Hc).
      destruct (decide (q ∈ seen_files st2)); [left|right]; done.
Qed.

Lemma extends_print (msg : str) (st : state) : extends st (print msg st).
Proof.
  split; [done|]. exists [Print msg]. simpl.
  split; [done|]. split; [constructor|].
  intros q. split; [by intros ?%elem_of_nil|]. by intros (? & ? & _).
Qed.

Lemma extends_unseen (st st' : state) :
  extends st st' -> (unseen st' <= unseen st)%nat.
Proof.
  intros [Hs _]. unfold unseen. apply subseteq_size. set_solver.
Qed.

Lemma unseen_add_seen (path : str) (st : state) (f : file) :
  path ∉ seen_files st -> files !! path = Some f ->
  (unseen (opened path (add_seen path st)) < unseen st)%nat.
Proof.
  intros Hn Hf. unfold unseen. simpl. apply subset_size.
  apply elem_of_dom_2 in Hf. set_solver.
Qed.

Section Loop.
Variable rec : str -> state -> outcome str.
Variable n : nat.
Hypothesis rec_post :
  forall path st, (unseen st < n)%nat -> post st (rec path st).

Lemma inline_lines_post (header_dir : str) (lines processed_lines : list str)
    (st : state) :
  (unseen st < n)%nat ->
  post st (inline_lines rec header_dir lines processed_lines st).
Proof.
  revert processed_lines st.
  induction lines as [|line rest IH]; intros processed_lines st Hn; simpl.
  - apply extends_refl.
  - destruct (match_local_include line) as [name|].
    + pose proof (rec_post (path_join header_dir name)
                    (print (msg_nested name) st) Hn) as Hrec.
      destruct (rec _ _) as [txt st1|e st1|]; simpl in Hrec; [| |done].
      * assert (extends st st1) as Hext
          by (eapply extends_trans; [apply extends_print|done]).
        pose proof (extends_unseen _ _ Hext).
        specialize (IH (processed_lines ++ [txt]) st1 ltac:(lia)).
        destruct (inline_lines _ _ _ _ _); simpl in *; [| |done];
          by eapply extends_trans.
      * simpl. eapply extends_trans; [apply extends_print|done].
    + destruct (str_eqb _ _); by apply IH.
Qed.

End Loop.

Lemma recursively_inline_fuel_post (fuel : nat) (header_path : str)
    (st : state) :
  (unseen st < fuel)%nat ->
  post st (recursively_inline_fuel fuel header_path st).
Proof.
  revert header_path st.
  induction fuel as [|fuel IH]; intros header_path st Hn; [lia|].
  simpl. destruct (decide _) as [Hin|Hin]; [apply extends_refl|].
  destruct (files !! abspath header_path) as [[content|e]|] eqn:Hf.
  - pose proof (unseen_add_seen _ _ _ Hin Hf) as Hlt.
    assert (extends st (opened (abspath header_path)
                          (add_seen (abspath header_path) st))) as Hext.
    { split; [set_solver|]. exists [Open (abspath header_path)]. simpl.
      split; [done|]. split; [apply NoDup_singleton|].
      intros q. rewrite list_elem_of_singleton. split.
      - intros ->. split; [set_solver|]. split; [done|]. by eexists.
      - intros (H1 & H2 & _). set_solver. }
    assert (unseen (opened (abspath header_path)
                      (add_seen (abspath header_path) st)) < fuel)%nat
      as Hfuel by lia.
    pose proof (inline_lines_post _ fuel IH (dirname (abspath header_path))
                  (splitlines content) [] _ Hfuel) as Hl.
    destruct (inline_lines _ _ _ _ _); simpl in *; [| |done];
      by eapply extends_trans.
  - simpl. split; [set_solver|]. exists []. rewrite app_nil_r. simpl.
    split; [done|]. split; [constructor|].
    intros q. split; [by intros ?%elem_of_nil|].
    intros (H1 & H2 & c & Hc).
    assert (q = abspath header_path) as -> by set_solver. congruence.
  - simpl. split; [set_solver|]. exists [Print (msg_not_found header_path)].
    simpl. split; [done|]. split; [constructor|].
    intros q. split; [by intros ?%elem_of_nil|].
    intros (H1 & H2 & c & Hc).
    assert (q = abspath header_path) as -> by set_solver. congruence.
Qed.

End ResolverProperties.

Section ResolverResults.
Context {W : World}.

(** More fuel never changes a result. *)
Lemma inline_lines_more (rec1 rec2 : str -> state -> outcome str)
    (header_dir : str) (lines processed_lines : list str) (st : state) :
  (forall path st, rec1 path st <> NoFuel -> rec2 path st = rec1 path st) ->
  inline_lines rec1 header_dir lines processed_lines st <> NoFuel ->
  inline_lines rec2 header_dir lines processed_lines st
  = inline_lines rec1 header_dir lines processed_lines st.
Proof.
  intros Hrec. revert processed_lines st.
  induction lines as [|line rest IH]; intros processed_lines st; simpl; [done|].
  destruct (match_local_include line) as [name|].
  - intros H.
    rewrite Hrec by (intros E; by rewrite E in H).
    destruct (rec1 _ _); [by apply IH|done|done].
  - destruct (str_eqb _ _); apply IH.
Qed.

Lemma recursively_inline_fuel_eq (fuel : nat) (header_path : str)
    (st : state) :
  recursively_inline_fuel (S fuel) header_path st =
  let abs_header_path := abspath header_path in
  if decide (abs_header_path ∈ seen_files st) then Return [] st
  else
    let st := add_seen abs_header_path st in
    match files !! abs_header_path with
    | None => Return [] (print (msg_not_found header_path) st)
    | Some (Unreadable e) => Raise e st
    | Some (Text content) =>
        let st := opened abs_header_path st in
        match inline_lines (recursively_inline_fuel fuel)
                (dirname abs_header_path) (splitlines content) [] st with
        | Return processed_lines st => Return (join [LF] processed_lines) st
        | Raise e st => Raise e st
        | NoFuel => NoFuel
        end
    end.
Proof. reflexivity. Qed.

Lemma recursively_inline_fuel_S (fuel : nat) (header_path : str) (st : state) :
  recursively_inline_fuel fuel header_path st <> NoFuel ->
  recursively_inline_fuel (S fuel) header_path st
  = recursively_inline_fuel fuel header_path st.
Proof.
  revert header_path st.
  induction fuel as [|fuel IH]; intros header_path st; [done|].
  rewrite !recursively_inline_fuel_eq. cbv zeta.
  destruct (decide _); [done|].
  destruct (files !! abspath header_path) as [[content|e]|]; [|done|done].
  intros H.
  rewrite (inline_lines_more (recursively_inline_fuel fuel)
             (recursively_inline_fuel (S fuel))).
  - done.
  - intros path st0 Hp. by apply IH.
  - intros E. by rewrite E in H.
Qed.

Lemma recursively_inline_fuel_more (fuel fuel' : nat) (header_path : str)
    (st : state) :
  (fuel <= fuel')%nat ->
  recursively_inline_fuel fuel header_path st <> NoFuel ->
  recursively_inline_fuel fuel' header_path st
  = recursively_inline_fuel fuel header_path st.
Proof.
  induction 1 as [|k Hle IH]; [done|]. intros H.
  rewrite recursively_inline_fuel_S; rewrite IH; done.
Qed.

Lemma post_no_fuel {A : Type} (st : state) (o : outcome A) :
  post st o -> o <> NoFuel.
Proof. by destruct o. Qed.

Lemma unseen_le_files (st : state) : (unseen st <= size files)%nat.
Proof.
  unfold unseen. rewrite <- size_dom. apply subseteq_size. set_solver.
Qed.

(** Enough fuel: any amount above the number of unvisited existing
    paths gives the result of [recursively_inline]. *)
Lemma recursively_inline_fuel_enough (fuel : nat) (header_path : str)
    (st : state) :
  (unseen st < fuel)%nat ->
  recursively_inline_fuel fuel header_path st
  = recursively_inline header_path st.
Proof.
  intros Hn. unfold recursively_inline.
  pose proof (unseen_le_files st) as Hle.
  pose proof (recursively_inline_fuel_post fuel header_path st Hn) as H1.
  pose proof (recursively_inline_fuel_post (S (size files)) header_path st
                ltac:(lia)) as H2.
  apply post_no_fuel in H1, H2.
  destruct (decide (fuel <= S (size files))%nat).
  - symmetry. by apply recursively_inline_fuel_more.
  - apply recursively_inline_fuel_more; [lia|done].
Qed.

Lemma recursively_inline_post (header_path : str) (st : state) :
  post st (recursively_inline header_path st).
Proof.
  apply recursively_inline_fuel_post. pose proof (unseen_le_files st). lia.
Qed.

(** The unfolding of [recursively_inline], free of fuel. *)
Lemma recursively_inline_unfold (header_path : str) (st : state) :
  recursively_inline header_path st =
  let abs_header_path := abspath header_path in
  if decide (abs_header_path ∈ seen_files st) then Return [] st
  else
    let st := add_seen abs_header_path st in
    match files !! abs_header_path with
    | None => Return [] (print (msg_not_found header_path) st)
    | Some (Unreadable e) => Raise e st
    | Some (Text content) =>
        let st := opened abs_header_path st in
        match inline_lines recursively_inline (dirname abs_header_path)
                (splitlines content) [] st with
        | Return processed_lines st => Return (join [LF] processed_lines) st
        | Raise e st => Raise e st
        | NoFuel => NoFuel
        end
    end.
Proof.
  pose proof (recursively_inline_post header_path st) as Hpost.
  apply post_no_fuel in Hpost.
  unfold recursively_inline at 1. unfold recursively_inline at 1 in Hpost.
  rewrite recursively_inline_fuel_eq in *. cbv zeta in *.
  destruct (decide _); [done|].
  destruct (files !! abspath header_path) as [[content|e]|]; [|done|done].
  rewrite (inline_lines_more (recursively_inline_fuel (size files))
             recursively_inline); [done| |].
  - intros path st0 Hp. unfold recursively_inline.
    by apply recursively_inline_fuel_S.
  - intros E. by rewrite E in Hpost.
Qed.

End ResolverResults.

Section ResolverClaims.
Context {W : World}.

Lemma recursively_inline_seen (header_path : str) (st : state) :
  abspath header_path ∈ seen_files st ->
  recursively_inline header_path st = Return [] st.
Proof.
  intros Hin. rewrite recursively_inline_unfold. cbv zeta.
  by destruct (decide _).
Qed.

Lemma inline_lines_recursively_inline_post (header_dir : str)
    (lines processed_lines : list str) (st : state) :
  post st (inline_lines recursively_inline header_dir lines processed_lines st).
Proof.
  apply (inline_lines_post recursively_inline (S (unseen st))); [|lia].
  intros path st1 _. apply recursively_inline_post.
Qed.

Lemma recursively_inline_final (header_path : str) (st : state) :
  exists st', final_state (recursively_inline header_path st) = Some st' /\
    abspath header_path ∈ seen_files st' /\ extends st st'.
Proof.
  pose proof (recursively_inline_post header_path st) as Hpost.
  rewrite recursively_inline_unfold in *. cbv zeta in *.
  destruct (decide _) as [Hin|Hin]; [by exists st|].
  destruct (files !! abspath header_path) as [[content|e]|]; simpl in *.
  - pose proof (inline_lines_recursively_inline_post
                  (dirname (abspath header_path)) (splitlines content) []
                  (opened (abspath header_path)
                     (add_seen (abspath header_path) st))) as Hl.
    destruct (inline_lines _ _ _ _ _) as [ls st1|e st1|]; simpl in *;
      [| |done]; exists st1; (split; [done|]); (split; [|done]);
      destruct Hl as [Hs _]; simpl in Hs; set_solver.
  - eexists. split; [done|]. split; [|done]. simpl. set_solver.
  - eexists. split; [done|]. split; [|done]. simpl. set_solver.
Qed.

Lemma inline_lines_plain (rec : str -> state -> outcome str)
    (header_dir : str) (lines processed_lines : list str) (st : state) :
  forallb (fun line => negb (is_local_include line)) lines = true ->
  inline_lines rec header_dir lines processed_lines st
  = Return (processed_lines
            ++ List.filter (fun line => negb (is_pragma_once line)) lines) st.
Proof.
  revert processed_lines.
  induction lines as [|line rest IH]; intros processed_lines; simpl.
  - intros _. by rewrite app_nil_r.
  - unfold is_local_include at 1, is_pragma_once at 1.
    destruct (match_local_include line); [done|]. simpl. intros Hrest.
    destruct (str_eqb _ _); simpl; rewrite IH by done; [done|].
    by rewrite <- app_assoc.
Qed.

(** C3. Inlining a readable header that is not yet visited and none of
    whose lines is a local include returns its own lines, in order and
    joined by newlines, without the lines whose trimmed form is
    [#pragma once]; nothing else is changed. *)
Theorem header_without_local_includes (header_path : str) (st : state)
    (content : str) :
  abspath header_path ∉ seen_files st ->
  files !! abspath header_path = Some (Text content) ->
  forallb (fun line => negb (is_local_include line)) (splitlines content)
  = true ->
  recursively_inline header_path st
  = Return
      (join [LF]
         (List.filter (fun line => negb (str_eqb (strip line) (lit "#pragma once")))
            (splitlines content)))
      (opened (abspath header_path) (add_seen (abspath header_path) st)).
Proof.
  intros Hnew Hf Hplain.
  rewrite recursively_inline_unfold. cbv zeta.
  destruct (decide _); [done|]. rewrite Hf.
  by rewrite inline_lines_plain.
Qed.

End ResolverClaims.

(** ** The orchestrator *)

Section OrchestratorClaims.
Context {W : World}.

Lemma rendered_empty (minify_style : str) (max_chars : Z) :
  rendered minify_style max_chars [] = [].
Proof. reflexivity. Qed.

Lemma forallb_app_true {A : Type} (f : A -> bool) (a b : list A) :
  forallb f a = true -> forallb f b = true -> forallb f (a ++ b) = true.
Proof. intros Ha Hb. rewrite forallb_app, Ha, Hb. done. Qed.

(** C8, amended. A marked include of a header at whose path there is
    nothing, so that [open] raises [FileNotFoundError]: the resolver
    prints the warning and returns the empty text without raising; the
    block written for the site is the start marker, the empty rendered
    text with its newline, and the end marker; and the run goes on with
    the remaining lines. *)
Theorem missing_header_gives_empty_block (source_directory : str)
    (cfg : config) (line header_name : str) (rest : list str)
    (outfile : str) (tr : list event) :
  startswith (strip line) include_prefix = true ->
  endswith (strip line) marked_suffix = true ->
  search_include (strip line) = Some header_name ->
  files !! abspath (path_join source_directory header_name) = None ->
  let header_path := path_join source_directory header_name in
  let tr' :=
    tr ++ [Print (msg_inlining header_name (minify_style cfg));
           Print (msg_not_found header_path)] in
  let outfile' :=
    outfile ++ start_marker header_name ++ [LF] ++ end_marker header_name in
  (forall st, abspath header_path ∉ seen_files st ->
     recursively_inline header_path st
     = Return [] (print (msg_not_found header_path)
                    (add_seen (abspath header_path) st))) /\
  process_line source_directory cfg line outfile tr = Completed outfile' tr' /\
  process_lines source_directory cfg (line :: rest) outfile tr
  = process_lines source_directory cfg rest outfile' tr'.
Proof.
  intros Hstart Hend Hsearch Hf header_path tr' outfile'.
  assert (forall st, abspath header_path ∉ seen_files st ->
     recursively_inline header_path st
     = Return [] (print (msg_not_found header_path)
                    (add_seen (abspath header_path) st))) as Hrec.
  { intros st Hnew. rewrite recursively_inline_unfold. cbv zeta.
    destruct (decide _); [done|]. subst header_path. by rewrite Hf. }
  assert (process_line source_directory cfg line outfile tr
          = Completed outfile' tr') as Hline.
  { unfold process_line. cbv zeta. rewrite Hstart, Hend, Hsearch. simpl.
    fold header_path. rewrite Hrec by set_solver.
    rewrite rendered_empty. cbn [print add_seen trace].
    subst tr' outfile'. by rewrite app_nil_l, <- (app_assoc tr). }
  split; [done|]. split; [done|]. simpl. by rewrite Hline.
Qed.

(** C9. A line of the root file whose trimmed form is [#include]
    followed by an empty pair of double quotes, any text holding no
    [#], and the mark [//@] is not inlined: the line is written as it
    is, nothing else is written and nothing is printed. *)
Theorem empty_name_written_verbatim (source_directory : str) (cfg : config)
    (line mid : str) (outfile : str) (tr : list event) :
  strip line = lit "#include " ++ [DQ; DQ] ++ mid ++ lit "//@" ->
  forallb (fun c => negb (c =? HASH)%N) mid = true ->
  process_line source_directory cfg line outfile tr
  = Completed (outfile ++ line) tr.
Proof.
  intros Hstrip Hmid. unfold process_line. cbv zeta.
  destruct (_ && _); [|done].
  assert (search_include (strip line) = None) as ->; [|done].
  rewrite Hstrip.
  change (lit "#include " ++ [DQ; DQ] ++ mid ++ lit "//@")
    with (HASH :: lit "include " ++ [DQ; DQ] ++ mid ++ lit "//@").
  cbn [search_include].
  assert (include_at (HASH :: lit "include " ++ [DQ; DQ] ++ mid ++ lit "//@")
          = None) as -> by reflexivity.
  apply search_include_no_hash.
  repeat (apply forallb_app_true; [done|]). done.
Qed.

End OrchestratorClaims.

(** ** The claims on the example tree *)

Lemma demo_a_run :
  recursively_inline (W:=Demo.world) (lit "a.h") Demo.st0
  = Return DemoRuns.a_text DemoRuns.a_state.
Proof. vm_compute. reflexivity. Qed.

Lemma demo_a_text :
  DemoRuns.a_text
  = join [LF] [ []; lit "int d = 1;  // one"; lit "#define D 1"; lit "int b;";
                []; lit "int c;"; lit "int a;" ].
Proof. vm_compute. reflexivity. Qed.

Lemma demo_a_opens :
  opens (trace DemoRuns.a_state)
  = [lit "/w/a.h"; lit "/w/b.h"; lit "/w/d.h"; lit "/w/c.h"].
Proof. vm_compute. reflexivity. Qed.

Lemma header_without_local_includes_witness :
  recursively_inline (W:=Demo.world) (lit "leaf.h") Demo.st0
  = Return
      (join [LF] [ lit "  int x = 1;"; []; lit "#include <vector>";
                   lit "#pragma once // kept" ])
      (opened (lit "/w/leaf.h") (add_seen (lit "/w/leaf.h") Demo.st0)).
Proof.
  apply (header_without_local_includes (W:=Demo.world) (lit "leaf.h")
           Demo.st0 Demo.leaf_h).
  - apply not_elem_of_empty.
  - vm_compute. reflexivity.
  - vm_compute. reflexivity.
Defined.

Lemma missing_header_gives_empty_block_witness :
  process_line (W:=Demo.world) (lit "/w") (Demo.cfg "none")
    (Demo.inc "missing.h" ++ lit " //@" ++ [LF]) [] []
  = Completed
      (start_marker (lit "missing.h") ++ [LF] ++ end_marker (lit "missing.h"))
      [Print (msg_inlining (lit "missing.h") (lit "none"));
       Print (msg_not_found (lit "/w/missing.h"))].
Proof.
  refine (proj1 (proj2
    (missing_header_gives_empty_block (W:=Demo.world) (lit "/w")
       (Demo.cfg "none") (Demo.inc "missing.h" ++ lit " //@" ++ [LF])
       (lit "missing.h") [] [] [] _ _ _ _)));
    vm_compute; reflexivity.
Defined.

Lemma empty_name_written_verbatim_witness :
  process_line (W:=Demo.world) (lit "/w") (Demo.cfg "none")
    (lit "  #include " ++ [DQ; DQ] ++ lit " //@" ++ [LF]) [] []
  = Completed ([] ++ lit "  #include " ++ [DQ; DQ] ++ lit " //@" ++ [LF]) [].
Proof.
  apply (empty_name_written_verbatim (W:=Demo.world) (lit "/w")
           (Demo.cfg "none") (lit "  #include " ++ [DQ; DQ] ++ lit " //@" ++ [LF])
           (lit " ") [] []).
  - vm_compute. reflexivity.
  - vm_compute. reflexivity.
Defined.

(** ** Regular-expression substitution *)

Section ReSub.
Variable m : matcher.
Hypothesis m_shrinks : shrinks m.

Lemma re_sub_fuel_enough (fuel : nat) (s : str) :
  (length s < fuel)%nat -> re_sub_fuel m fuel s = re_sub m s.
Proof.
  unfold re_sub. remember (S (length s)) as k eqn:Hk.
  assert (length s < k)%nat as Hlt by lia. clear Hk.
  revert s k Hlt.
  induction fuel as [|fuel IH]; intros s k Hk Hfuel; [lia|].
  destruct k as [|k]; [lia|]. simpl.
  destruct (m s) as [[repl rest]|] eqn:Hm.
  - apply m_shrinks in Hm. f_equal. apply IH; lia.
  - destruct s as [|c s']; [done|]. simpl in *. f_equal. apply IH; lia.
Qed.

(** The unfolding of [re_sub], free of fuel. *)
Lemma re_sub_unfold (s : str) :
  re_sub m s =
  match m s with
  | Some (repl, rest) => repl ++ re_sub m rest
  | None =>
      match s with
      | [] => []
      | c :: s' => c :: re_sub m s'
      end
  end.
Proof.
  unfold re_sub at 1. cbn [re_sub_fuel].
  destruct (m s) as [[repl rest]|] eqn:Hm.
  - apply m_shrinks in Hm. by rewrite re_sub_fuel_enough.
  - destruct s as [|c s']; [done|].
    rewrite re_sub_fuel_enough; [done|simpl; lia].
Qed.

(** Induction along the scan of [re_sub]. *)
Lemma re_sub_ind (P : str -> str -> Prop) :
  (forall s repl rest,
     m s = Some (repl, rest) -> P rest (re_sub m rest) ->
     P s (repl ++ re_sub m rest)) ->
  (m [] = None -> P [] []) ->
  (forall c s,
     m (c :: s) = None -> P s (re_sub m s) -> P (c :: s) (c :: re_sub m s)) ->
  forall s, P s (re_sub m s).
Proof.
  intros Hmatch Hnil Hcopy s.
  remember (length s) as k eqn:Hk. revert s Hk.
  induction k as [k IH] using lt_wf_ind. intros s ->.
  rewrite re_sub_unfold.
  destruct (m s) as [[repl rest]|] eqn:Hm.
  - apply Hmatch; [done|]. apply (IH (length rest)); [|done].
    by apply m_shrinks in Hm.
  - destruct s as [|c s']; [by apply Hnil|].
    apply Hcopy; [done|]. apply (IH (length s')); [simpl; lia|done].
Qed.

Lemma re_sub_no_match (s : str) :
  matches_somewhere m s = false -> re_sub m s = s.
Proof.
  induction s as [|c s IH]; intros H; rewrite re_sub_unfold; simpl in H.
  - by destruct (m []).
  - destruct (m (c :: s)); [done|]. f_equal. by apply IH.
Qed.

End ReSub.

Lemma drop_shrinks (k : nat) (s : str) : (length (drop k s) <= length s)%nat.
Proof. rewrite length_drop. lia. Qed.

Lemma after_close_shrinks (s rest : str) :
  after_close s = Some rest -> (length rest < length s)%nat.
Proof.
  induction s as [|c s IH]; [done|]. simpl.
  destruct s as [|d s'].
  - by rewrite andb_false_r.
  - destruct (_ && _).
    + intros [= <-]. rewrite length_drop. simpl. lia.
    + intros H. apply IH in H. simpl in *. lia.
Qed.

Lemma block_comment_shrinks : shrinks block_comment.
Proof.
  intros s repl rest. unfold block_comment.
  destruct (startswith _ _); [|done].
  destruct (after_close _) as [r|] eqn:Hc; [|done].
  intros [= _ <-]. apply after_close_shrinks in Hc.
  pose proof (drop_shrinks 2 s). lia.
Qed.

Lemma line_comment_shrinks : shrinks line_comment.
Proof.
  intros s repl rest. unfold line_comment.
  destruct (startswith _ _) eqn:Hs; [|done].
  intros [= _ <-]. apply startswith_inv in Hs as [r ->].
  change (drop 2 ([SLASH; SLASH] ++ r)) with r.
  pose proof (drop_while_length (fun c => negb (c =? LF)%N) r).
  simpl. lia.
Qed.

Lemma ws_run_shrinks : shrinks ws_run.
Proof.
  intros s repl rest. unfold ws_run.
  destruct s as [|c s]; [done|]. destruct (isspace c); [|done].
  intros [= _ <-]. pose proof (drop_while_length isspace s). simpl. lia.
Qed.

Lemma tight_punct_shrinks : shrinks tight_punct.
Proof.
  intros s repl rest. unfold tight_punct.
  pose proof (drop_while_length isspace s) as H1.
  destruct (drop_while isspace s) as [|c s']; [done|].
  destruct (is_punct c); [|done].
  intros [= _ <-]. pose proof (drop_while_length isspace s'). simpl in *. lia.
Qed.

(** ** Comment stripping *)

Lemma drop_while_stops (f : N -> bool) (s : str) (c : N) (r : str) :
  drop_while f s = c :: r -> f c = false.
Proof.
  induction s as [|d s IH]; simpl; [done|].
  destruct (f d) eqn:Hd; [done|]. by intros [= <- _].
Qed.

Lemma startswith_cons2 (c a b : N) (s : str) :
  startswith (c :: s) [a; b] = (a =? c)%N && startswith s [b].
Proof. reflexivity. Qed.

Lemma startswith_cons1 (c a : N) (s : str) :
  startswith (c :: s) [a] = (a =? c)%N.
Proof. simpl. by rewrite andb_true_r. Qed.

Lemma line_comment_cons_none (c : N) (s : str) :
  line_comment (c :: s) = None
  <-> (SLASH =? c)%N && startswith s [SLASH] = false.
Proof.
  unfold line_comment. rewrite startswith_cons2.
  destruct (_ && _); split; congruence.
Qed.

(** What the removal of the line comments leaves holds no [//]. *)
Lemma line_comment_gone (s : str) :
  matches_somewhere line_comment (re_sub line_comment s) = false /\
  (startswith (re_sub line_comment s) [SLASH] = true ->
   startswith s [SLASH] = true).
Proof.
  apply (re_sub_ind line_comment line_comment_shrinks
           (fun s out =>
              matches_somewhere line_comment out = false /\
              (startswith out [SLASH] = true -> startswith s [SLASH] = true))).
  - intros s0 repl rest Hm [IH1 IH2]. unfold line_comment in Hm.
    destruct (startswith s0 [SLASH; SLASH]); [|done].
    injection Hm as <- <-. simpl. split; [done|].
    intros H. apply IH2 in H. apply startswith_head in H as [r Hr].
    by apply drop_while_stops in Hr.
  - done.
  - intros c s0 Hm [IH1 IH2]. split.
    + cbn [matches_somewhere].
      assert (line_comment (c :: re_sub line_comment s0) = None) as ->;
        [|done].
      apply line_comment_cons_none in Hm. apply line_comment_cons_none.
      destruct (SLASH =? c)%N; [|done]. cbn [andb] in *.
      destruct (startswith (re_sub line_comment s0) [SLASH]) eqn:Hs; [|done].
      by rewrite IH2 in Hm.
    + rewrite !startswith_cons1. done.
Qed.

Lemma line_comment_idempotent (s : str) :
  re_sub line_comment (re_sub line_comment s) = re_sub line_comment s.
Proof.
  apply re_sub_no_match; [apply line_comment_shrinks|].
  apply line_comment_gone.
Qed.

(** A substitution by the empty string never lengthens the text, and
    shortens it when the pattern matches somewhere. *)
Lemma re_sub_erasing_length (m : matcher) (s : str) :
  shrinks m ->
  (forall s repl rest, m s = Some (repl, rest) -> repl = []) ->
  (length (re_sub m s) <= length s)%nat /\
  (matches_somewhere m s = true -> (length (re_sub m s) < length s)%nat).
Proof.
  intros Hsh Herase.
  apply (re_sub_ind m Hsh
           (fun s out =>
              (length out <= length s)%nat /\
              (matches_somewhere m s = true -> (length out < length s)%nat))).
  - intros s0 repl rest Hm [IH1 _].
    pose proof (Herase _ _ _ Hm) as ->. apply Hsh in Hm. simpl.
    split; [lia|]. intros _. lia.
  - intros H. simpl. rewrite H. done.
  - intros c s0 Hm [IH1 IH2]. simpl. rewrite Hm.
    split; [lia|]. intros H. apply IH2 in H. lia.
Qed.

Lemma block_comment_erases (s repl rest : str) :
  block_comment s = Some (repl, rest) -> repl = [].
Proof.
  unfold block_comment. destruct (startswith _ _); [|done].
  destruct (after_close _); [|done]. by intros [= <- _].
Qed.

Lemma line_comment_erases (s repl rest : str) :
  line_comment s = Some (repl, rest) -> repl = [].
Proof.
  unfold line_comment. destruct (startswith _ _); [|done]. by intros [= <- _].
Qed.

(** C6, as the code has it: comment stripping is not idempotent.  In
    [//**/**/] the first pass removes the block comment at the second
    character and so joins [/] and [**/] into a new block comment, which
    only a second stripping removes. *)
Lemma strip_comments_not_idempotent :
  ~ (forall content : str,
       strip_comments (strip_comments content) = strip_comments content).
Proof.
  intros H. specialize (H (lit "//**/**/")). vm_compute in H. discriminate H.
Qed.

(** C6, amended. The stripped text holds no [//], and stripping it once
    more returns it unchanged exactly when it holds no complete block
    comment, that is no [/*] followed later by [*/]. *)
Theorem strip_comments_idempotent_iff (content : str) :
  matches_somewhere line_comment (strip_comments content) = false /\
  (strip_comments (strip_comments content) = strip_comments content
   <-> matches_somewhere block_comment (strip_comments content) = false).
Proof.
  split; [apply line_comment_gone|]. split.
  - intros Heq.
    destruct (matches_somewhere block_comment (strip_comments content))
      eqn:Hb; [exfalso|done].
    pose proof (re_sub_erasing_length block_comment (strip_comments content)
                  block_comment_shrinks block_comment_erases) as [_ Hlt].
    pose proof (re_sub_erasing_length line_comment
                  (re_sub block_comment (strip_comments content))
                  line_comment_shrinks line_comment_erases) as [Hle _].
    specialize (Hlt Hb).
    assert (length (strip_comments (strip_comments content))
            < length (strip_comments content))%nat as Hlen
      by (unfold strip_comments at 1; lia).
    rewrite Heq in Hlen. lia.
  - intros Hb. unfold strip_comments at 1.
    rewrite (re_sub_no_match block_comment block_comment_shrinks _ Hb).
    unfold strip_comments. apply line_comment_idempotent.
Qed.

(** ** Whitespace minification *)

Lemma remove_ws_app (a b : str) : remove_ws (a ++ b) = remove_ws a ++ remove_ws b.
Proof. apply List.filter_app. Qed.

Lemma remove_ws_drop_while (s : str) :
  remove_ws (drop_while isspace s) = remove_ws s.
Proof.
  induction s as [|c s IH]; simpl; [done|].
  destruct (isspace c) eqn:Hc; simpl; [done|]. by rewrite Hc.
Qed.

Lemma remove_ws_rev (s : str) : remove_ws (rev s) = rev (remove_ws s).
Proof.
  induction s as [|c s IH]; simpl; [done|].
  rewrite remove_ws_app, IH. simpl. destruct (isspace c); simpl; [|done].
  by rewrite app_nil_r.
Qed.

Lemma remove_ws_strip (s : str) : remove_ws (strip s) = remove_ws s.
Proof.
  unfold strip, rstrip, lstrip.
  rewrite remove_ws_rev, remove_ws_drop_while, remove_ws_rev, rev_involutive.
  apply remove_ws_drop_while.
Qed.

Lemma remove_ws_join (sep : str) (parts : list str) :
  remove_ws sep = [] ->
  remove_ws (join sep parts) = concat (List.map remove_ws parts).
Proof.
  intros Hsep. induction parts as [|x rest IH]; [done|].
  destruct rest as [|y rest].
  - simpl. by rewrite app_nil_r.
  - change (join sep (x :: y :: rest)) with (x ++ sep ++ join sep (y :: rest)).
    rewrite !remove_ws_app, Hsep, IH. done.
Qed.

Lemma is_punct_not_space (c : N) : is_punct c = true -> isspace c = false.
Proof.
  unfold is_punct. intros H. apply existsb_exists in H as (x & Hin & Heq).
  apply N.eqb_eq in Heq. subst x. vm_compute in Hin.
  repeat (destruct Hin as [<-|Hin]; [reflexivity|]). destruct Hin.
Qed.

Lemma remove_ws_ws_run (s : str) : remove_ws (re_sub ws_run s) = remove_ws s.
Proof.
  apply (re_sub_ind ws_run ws_run_shrinks
           (fun s out => remove_ws out = remove_ws s)).
  - intros s0 repl rest Hm IH. unfold ws_run in Hm.
    destruct s0 as [|c s0]; [done|].
    destruct (isspace c) eqn:Hc; [|done]. injection Hm as <- <-.
    rewrite remove_ws_app, IH, remove_ws_drop_while. simpl. by rewrite Hc.
  - done.
  - intros c s0 _ IH. simpl. by rewrite IH.
Qed.

Lemma remove_ws_tight_punct (s : str) :
  remove_ws (re_sub tight_punct s) = remove_ws s.
Proof.
  apply (re_sub_ind tight_punct tight_punct_shrinks
           (fun s out => remove_ws out = remove_ws s)).
  - intros s0 repl rest Hm IH. unfold tight_punct in Hm.
    destruct (drop_while isspace s0) as [|c s1] eqn:Hd; [done|].
    destruct (is_punct c) eqn:Hc; [|done]. injection Hm as <- <-.
    rewrite remove_ws_app, IH, remove_ws_drop_while.
    rewrite <- (remove_ws_drop_while s0), Hd. simpl.
    by rewrite (is_punct_not_space c Hc).
  - done.
  - intros c s0 _ IH. simpl. by rewrite IH.
Qed.

(** Minification deletes or replaces whitespace and nothing else. *)
Lemma remove_ws_minify (line : str) :
  remove_ws (minify_cpp_line line) = remove_ws line.
Proof.
  unfold minify_cpp_line. by rewrite remove_ws_tight_punct, remove_ws_ws_run.
Qed.

(** C7, as the code has it: the whitespace-separated tokens of the two
    outputs differ, since minification removes the spaces around
    punctuation: [a = b] has three tokens and [a=b] has one. *)
Lemma single_line_merges_tokens :
  ~ (forall (max_chars : Z) (flattened_content : str),
       words (rendered (lit "single_line") max_chars flattened_content)
       = words (rendered (lit "none") max_chars flattened_content)).
Proof.
  intros H. specialize (H 120%Z (lit "a = b")). vm_compute in H.
  discriminate H.
Qed.

(** The output of the [single_line] style and the output of the [none]
    style hold the same sequence of non-whitespace characters. *)
Lemma single_line_keeps_non_whitespace (max_chars : Z)
    (flattened_content : str) :
  remove_ws (rendered (lit "single_line") max_chars flattened_content)
  = remove_ws (rendered (lit "none") max_chars flattened_content).
Proof.
  unfold rendered. rewrite !remove_ws_strip. unfold final_content.
  destruct (classified flattened_content) as [directives code_lines].
  destruct code_lines as [|ln code_lines]; [done|].
  rewrite !remove_ws_app. do 2 f_equal. unfold code_block.
  change (str_eqb (lit "single_line") (lit "single_line")) with true.
  change (str_eqb (lit "none") (lit "single_line")) with false.
  change (str_eqb (lit "none") (lit "multiline")) with false.
  cbv iota. rewrite !remove_ws_join by done.
  rewrite List.map_map. f_equal. apply List.map_ext. intros l.
  apply remove_ws_minify.
Qed.

(** ** Trimmed texts and lines *)

Lemma head_ok_app (a b : str) : head_ok a = true -> head_ok (a ++ b) = true.
Proof. by destruct a. Qed.

Lemma last_ok_app (a b : str) : last_ok b = true -> last_ok (a ++ b) = true.
Proof. unfold last_ok. rewrite rev_app_distr. apply head_ok_app. Qed.

Lemma last_ok_cons (c : N) (s : str) : last_ok s = true -> last_ok (c :: s) = true.
Proof. apply (last_ok_app [c] s). Qed.

Lemma head_ok_nonempty (s : str) : head_ok s = true -> s <> [].
Proof. by destruct s. Qed.

Lemma last_ok_nonempty (s : str) : last_ok s = true -> s <> [].
Proof. unfold last_ok. by destruct s. Qed.

Lemma head_ok_drop_while (s : str) :
  drop_while isspace s <> [] -> head_ok (drop_while isspace s) = true.
Proof.
  destruct (drop_while isspace s) as [|c r] eqn:Hd; [done|]. intros _.
  apply drop_while_stops in Hd. simpl. by rewrite Hd.
Qed.

Lemma drop_while_app_stop (f : N -> bool) (a : str) (c : N) (r : str) :
  f c = false -> drop_while f (a ++ c :: r) = drop_while f a ++ c :: r.
Proof.
  intros Hc. induction a as [|x a IH]; simpl.
  - by rewrite Hc.
  - destruct (f x); [done|]. done.
Qed.

Lemma drop_while_id (s : str) :
  head_ok s = true -> drop_while isspace s = s.
Proof.
  destruct s as [|c s]; [done|]. simpl. by destruct (isspace c).
Qed.

Lemma strip_tight (s : str) : strip s <> [] -> tight (strip s).
Proof.
  unfold strip, rstrip, lstrip. intros Hne.
  assert (drop_while isspace (rev (drop_while isspace s)) <> []) as Hne'.
  { intros E. rewrite E in Hne. done. }
  split.
  - destruct (drop_while isspace s) as [|c x] eqn:Hx; [done|].
    apply drop_while_stops in Hx. simpl rev.
    rewrite drop_while_app_stop by done. rewrite rev_app_distr. simpl.
    by rewrite Hx.
  - unfold last_ok. rewrite rev_involutive. by apply head_ok_drop_while.
Qed.

Lemma tight_strip (s : str) : tight s -> strip s = s.
Proof.
  intros [Hh Hl]. unfold strip, rstrip, lstrip.
  rewrite (drop_while_id s Hh). unfold last_ok in Hl.
  rewrite (drop_while_id _ Hl). apply rev_involutive.
Qed.

Lemma tight_join (sep : str) (parts : list str) :
  parts <> [] -> Forall tight parts -> tight (join sep parts).
Proof.
  induction parts as [|x rest IH]; [done|]. intros _ Hall.
  apply Forall_cons in Hall as [[Hh Hl] Hrest].
  destruct rest as [|y rest]; [done|].
  change (join sep (x :: y :: rest)) with (x ++ sep ++ join sep (y :: rest)).
  destruct (IH ltac:(done) Hrest) as [_ Hl'].
  split; [by apply head_ok_app|]. by do 2 apply last_ok_app.
Qed.

Lemma join_snoc (sep : str) (parts : list str) (x : str) :
  parts <> [] -> join sep (parts ++ [x]) = join sep parts ++ sep ++ x.
Proof.
  induction parts as [|y rest IH]; [done|]. intros _.
  destruct rest as [|z rest]; [done|].
  change (join sep ((y :: z :: rest) ++ [x]))
    with (y ++ sep ++ join sep ((z :: rest) ++ [x])).
  rewrite IH by done.
  change (join sep (y :: z :: rest)) with (y ++ sep ++ join sep (z :: rest)).
  by rewrite <- !app_assoc.
Qed.

Lemma join_app (sep : str) (a b : list str) :
  a <> [] -> b <> [] -> join sep (a ++ b) = join sep a ++ sep ++ join sep b.
Proof.
  intros Ha Hb. induction a as [|y rest IH]; [done|].
  destruct rest as [|z rest].
  - destruct b; done.
  - change (join sep ((y :: z :: rest) ++ b))
      with (y ++ sep ++ join sep ((z :: rest) ++ b)).
    rewrite IH by done.
    change (join sep (y :: z :: rest)) with (y ++ sep ++ join sep (z :: rest)).
    by rewrite <- !app_assoc.
Qed.

Lemma split_on_no_sep (s : str) : no_lf s = true -> split_on LF s = [s].
Proof.
  induction s as [|c s IH]; [done|]. simpl.
  intros [Hc Hs]%andb_prop. apply negb_true_iff in Hc. rewrite Hc.
  by rewrite IH.
Qed.

Lemma split_on_app (a b : str) :
  no_lf a = true -> split_on LF (a ++ LF :: b) = a :: split_on LF b.
Proof.
  induction a as [|c a IH]; simpl.
  - done.
  - intros [Hc Ha]%andb_prop. apply negb_true_iff in Hc. rewrite Hc.
    by rewrite IH.
Qed.

(** Joining lines that hold no newline and splitting again gives the
    lines back. *)
Lemma split_on_join (parts : list str) :
  parts <> [] -> forallb no_lf parts = true ->
  split_on LF (join [LF] parts) = parts.
Proof.
  induction parts as [|x rest IH]; [done|]. intros _.
  simpl forallb. intros [Hx Hrest]%andb_prop.
  destruct rest as [|y rest].
  - by apply split_on_no_sep.
  - change (join [LF] (x :: y :: rest))
      with (x ++ LF :: join [LF] (y :: rest)).
    rewrite split_on_app by done. f_equal. by apply IH.
Qed.

Lemma last_ok_cons_eq (c : N) (s : str) :
  s <> [] -> last_ok (c :: s) = last_ok s.
Proof.
  intros Hne. unfold last_ok. simpl.
  destruct (rev s) as [|d r] eqn:Hr; [|done].
  apply (f_equal (@rev N)) in Hr. rewrite rev_involutive in Hr. done.
Qed.

Lemma last_ok_single (c : N) : last_ok [c] = negb (isspace c).
Proof. reflexivity. Qed.

Lemma last_ok_drop_while (s : str) :
  last_ok s = true -> last_ok (drop_while isspace s) = true.
Proof.
  induction s as [|c s IH]; [done|]. simpl.
  destruct (isspace c) eqn:Hc; [|done]. intros Hl.
  destruct s as [|d s]; [by rewrite last_ok_single, Hc in Hl|].
  apply IH. by rewrite last_ok_cons_eq in Hl.
Qed.

Lemma re_sub_nil (m : matcher) : m [] = None -> re_sub m [] = [].
Proof. intros H. unfold re_sub. simpl. by rewrite H. Qed.

(** *** The shape of a minified line *)

Lemma ws_run_head (s : str) :
  head_ok s = true -> head_ok (re_sub ws_run s) = true.
Proof.
  destruct s as [|c s]; [done|]. simpl. intros Hc.
  rewrite (re_sub_unfold ws_run ws_run_shrinks). simpl.
  destruct (isspace c) eqn:E; simpl in *; [done|]. by rewrite E.
Qed.

Lemma ws_run_last (s : str) :
  last_ok s = true -> last_ok (re_sub ws_run s) = true.
Proof.
  apply (re_sub_ind ws_run ws_run_shrinks
           (fun s out => last_ok s = true -> last_ok out = true)).
  - intros s0 repl rest Hm IH Hl. unfold ws_run in Hm.
    destruct s0 as [|c s0]; [done|].
    destruct (isspace c) eqn:Hc; [|done]. injection Hm as <- <-.
    destruct s0 as [|d s0]; [by rewrite last_ok_single, Hc in Hl|].
    rewrite last_ok_cons_eq in Hl by done.
    apply (last_ok_cons SP). apply IH. by apply last_ok_drop_while.
  - done.
  - intros c s0 Hm IH Hl.
    destruct s0 as [|d s0]; [by rewrite re_sub_nil|].
    rewrite last_ok_cons_eq in Hl by done. apply last_ok_cons. by apply IH.
Qed.

Lemma ws_run_spaces (s : str) :
  Forall (fun c => isspace c = true -> c = SP) (re_sub ws_run s).
Proof.
  apply (re_sub_ind ws_run ws_run_shrinks
           (fun s out => Forall (fun c => isspace c = true -> c = SP) out)).
  - intros s0 repl rest Hm IH. unfold ws_run in Hm.
    destruct s0 as [|c s0]; [done|].
    destruct (isspace c); [|done]. injection Hm as <- <-.
    apply Forall_app. split; [|done]. by apply Forall_singleton.
  - intros _. apply Forall_nil_2.
  - intros c s0 Hm IH. apply Forall_cons. split; [|done].
    unfold ws_run in Hm. destruct (isspace c); done.
Qed.

Lemma tight_punct_head (s : str) :
  head_ok s = true -> head_ok (re_sub tight_punct s) = true.
Proof.
  intros Hh. rewrite (re_sub_unfold tight_punct tight_punct_shrinks).
  unfold tight_punct. rewrite (drop_while_id s Hh).
  destruct s as [|c s]; [done|]. by destruct (is_punct c).
Qed.

Lemma tight_punct_last (s : str) :
  last_ok s = true -> last_ok (re_sub tight_punct s) = true.
Proof.
  apply (re_sub_ind tight_punct tight_punct_shrinks
           (fun s out => last_ok s = true -> last_ok out = true)).
  - intros s0 repl rest Hm IH Hl. unfold tight_punct in Hm.
    apply last_ok_drop_while in Hl.
    destruct (drop_while isspace s0) as [|c s1]; [done|].
    destruct (is_punct c) eqn:Hc; [|done]. injection Hm as <- <-.
    destruct s1 as [|d s1].
    + simpl drop_while. rewrite re_sub_nil by done. simpl.
      rewrite last_ok_single. by rewrite (is_punct_not_space c Hc).
    + rewrite last_ok_cons_eq in Hl by done.
      apply (last_ok_cons c). apply IH. by apply last_ok_drop_while.
  - done.
  - intros c s0 Hm IH Hl.
    destruct s0 as [|d s0]; [by rewrite re_sub_nil|].
    rewrite last_ok_cons_eq in Hl by done. apply last_ok_cons. by apply IH.
Qed.

Lemma tight_punct_chars (Q : N -> Prop) (s : str) :
  Forall Q s -> Forall Q (re_sub tight_punct s).
Proof.
  apply (re_sub_ind tight_punct tight_punct_shrinks
           (fun s out => Forall Q s -> Forall Q out)).
  - intros s0 repl rest Hm IH Hall. unfold tight_punct in Hm.
    destruct (drop_while_suffix isspace s0) as (a & Hs0 & _).
    destruct (drop_while isspace s0) as [|c s1]; [done|].
    destruct (is_punct c); [|done]. injection Hm as <- <-.
    rewrite Hs0 in Hall. apply Forall_app in Hall as [_ Hall].
    apply Forall_cons in Hall as [Hc Hs1].
    apply Forall_app. split; [by apply Forall_singleton|]. apply IH.
    destruct (drop_while_suffix isspace s1) as (b & Hs1' & _).
    rewrite Hs1' in Hs1. by apply Forall_app in Hs1 as [_ ?].
  - done.
  - intros c s0 _ IH Hall. apply Forall_cons in Hall as [Hc Hs0].
    apply Forall_cons. split; [done|]. by apply IH.
Qed.

(** A minified fragment of a trimmed line is trimmed, and its only
    whitespace is the space: it holds no newline. *)
Lemma minify_tight (line : str) : tight line -> tight (minify_cpp_line line).
Proof.
  intros [Hh Hl]. unfold minify_cpp_line. split.
  - by apply tight_punct_head, ws_run_head.
  - by apply tight_punct_last, ws_run_last.
Qed.

Lemma minify_no_lf (line : str) : no_lf (minify_cpp_line line) = true.
Proof.
  unfold minify_cpp_line, no_lf. apply forallb_forall. intros c Hc.
  pose proof (tight_punct_chars _ _ (ws_run_spaces line)) as Hall.
  rewrite Forall_forall in Hall. apply list_elem_of_In in Hc.
  specialize (Hall c Hc).
  destruct (c =? LF)%N eqn:E; [|done]. apply N.eqb_eq in E. subst c.
  by specialize (Hall eq_refl).
Qed.

(** ** Packing the fragments into lines *)

Lemma flushed_snoc (packed : list (list str)) (group : list str) :
  flushed (packed ++ [group]) = flushed packed ++ join [SP] group ++ [LF].
Proof.
  unfold flushed. rewrite List.map_app, concat_app. simpl.
  by rewrite app_nil_r.
Qed.

Lemma join_nonempty (sep : str) (parts : list str) :
  parts <> [] -> Forall (fun p => p <> []) parts -> join sep parts <> [].
Proof.
  destruct parts as [|x rest]; [done|]. intros _ Hall.
  apply Forall_cons in Hall as [Hx _].
  destruct rest; simpl; [done|]. by destruct x.
Qed.

Lemma wrap_pack (max_chars : Z) (parts : list str)
    (packed : list (list str)) (cur : list str) :
  Forall (fun p => p <> []) parts -> Forall (fun p => p <> []) cur ->
  wrap max_chars parts (flushed packed) (join [SP] cur)
  = (flushed (fst (pack max_chars parts packed cur)),
     join [SP] (snd (pack max_chars parts packed cur))).
Proof.
  revert packed cur.
  induction parts as [|part rest IH]; intros packed cur Hparts Hcur; [done|].
  apply Forall_cons in Hparts as [Hpart Hrest].
  destruct cur as [|x cur].
  - simpl. apply (IH packed [part]); [done|]. by apply Forall_singleton.
  - cbn [wrap pack].
    pose proof (join_nonempty [SP] (x :: cur) ltac:(done) Hcur) as Hne.
    destruct (join [SP] (x :: cur)) as [|c line] eqn:Hj; [done|].
    destruct (_ <=? _)%Z.
    + rewrite <- Hj, <- (join_snoc [SP] (x :: cur) part) by done.
      apply IH; [done|]. apply Forall_app. split; [done|].
      by apply Forall_singleton.
    + rewrite <- Hj, <- flushed_snoc.
      apply (IH (packed ++ [x :: cur]) [part]); [done|].
      by apply Forall_singleton.
Qed.

Lemma pack_concat (max_chars : Z) (parts : list str)
    (packed : list (list str)) (cur : list str) :
  concat (fst (pack max_chars parts packed cur))
  ++ snd (pack max_chars parts packed cur)
  = concat packed ++ cur ++ parts.
Proof.
  revert packed cur.
  induction parts as [|part rest IH]; intros packed cur; simpl.
  - by rewrite app_nil_r.
  - destruct cur as [|x cur]; [apply (IH packed [part])|].
    destruct (_ <=? _)%Z.
    + rewrite IH. by rewrite <- !app_assoc.
    + rewrite IH, concat_app. simpl. by rewrite app_nil_r, <- !app_assoc.
Qed.

Lemma fits_single (max_chars : Z) (part : str) : fits max_chars [part].
Proof.
  unfold fits. simpl.
  destruct (Z_le_gt_dec (Z.of_nat (length part)) max_chars); [by left|].
  right. exists part. split; [done|lia].
Qed.

Lemma pack_fits (max_chars : Z) (parts : list str)
    (packed : list (list str)) (cur : list str) :
  Forall (fits max_chars) packed -> cur = [] \/ fits max_chars cur ->
  Forall (fun group => group <> []) packed ->
  Forall (fits max_chars) (fst (pack max_chars parts packed cur)) /\
  Forall (fun group => group <> []) (fst (pack max_chars parts packed cur)) /\
  (snd (pack max_chars parts packed cur) = [] \/
   fits max_chars (snd (pack max_chars parts packed cur))) /\
  (parts <> [] -> snd (pack max_chars parts packed cur) <> []) /\
  (cur <> [] -> snd (pack max_chars parts packed cur) <> []).
Proof.
  revert packed cur.
  induction parts as [|part rest IH]; intros packed cur Hdone Hcur Hne; simpl.
  - done.
  - destruct cur as [|x cur].
    + destruct (IH packed [part] Hdone (or_intror (fits_single _ _)) Hne)
        as (H1 & H2 & H3 & _ & H5).
      repeat split; try done; intros _; by apply H5.
    + destruct (_ <=? _)%Z eqn:Hle.
      * apply Z.leb_le in Hle.
        assert (fits max_chars ((x :: cur) ++ [part])) as Hfit.
        { left. rewrite join_snoc by done. rewrite !length_app.
          change (length [SP]) with 1%nat. lia. }
        destruct (IH packed ((x :: cur) ++ [part]) Hdone (or_intror Hfit) Hne)
          as (H1 & H2 & H3 & _ & H5).
        repeat split; try done; intros _; by apply H5.
      * destruct Hcur as [|Hcur]; [done|].
        assert (Forall (fits max_chars) (packed ++ [x :: cur])) as Hdone'.
        { apply Forall_app. split; [done|]. by apply Forall_singleton. }
        assert (Forall (fun group => group <> []) (packed ++ [x :: cur]))
          as Hne'.
        { apply Forall_app. split; [done|]. by apply Forall_singleton. }
        destruct (IH (packed ++ [x :: cur]) [part] Hdone'
                    (or_intror (fits_single _ _)) Hne')
          as (H1 & H2 & H3 & _ & H5).
        repeat split; try done; intros _; by apply H5.
Qed.

Lemma join_lines_snoc (lines : list str) (last_line : str) :
  concat (List.map (fun l => l ++ [LF]) lines) ++ last_line
  = join [LF] (lines ++ [last_line]).
Proof.
  induction lines as [|x rest IH]; [done|].
  simpl concat. rewrite <- app_assoc, IH.
  destruct rest as [|y rest]; simpl; by rewrite <- app_assoc.
Qed.

(** The text built by the packing loop is the newline-joined list of
    the space-joined groups. *)
Lemma wrapped_groups (max_chars : Z) (parts : list str) :
  parts <> [] -> Forall (fun p => p <> []) parts ->
  let groups :=
    fst (pack max_chars parts [] []) ++ [snd (pack max_chars parts [] [])] in
  wrapped max_chars parts = join [LF] (List.map (join [SP]) groups) /\
  concat groups = parts /\
  Forall (fits max_chars) groups /\
  Forall (fun group => group <> []) groups.
Proof.
  intros Hne Hparts groups.
  pose proof (wrap_pack max_chars parts [] [] Hparts (Forall_nil_2 _)) as Hw.
  pose proof (pack_concat max_chars parts [] []) as Hc.
  destruct (pack_fits max_chars parts [] [] (Forall_nil_2 _) (or_introl eq_refl)
              (Forall_nil_2 _)) as (H1 & H2 & H3 & H4 & _).
  specialize (H4 Hne). destruct H3 as [H3|H3]; [done|].
  subst groups. destruct (pack max_chars parts [] []) as [packed cur].
  simpl in *. repeat split.
  - unfold wrapped. change (flushed []) with (@nil N) in Hw.
    change (join [SP] []) with (@nil N) in Hw. rewrite Hw.
    assert (Forall (fun p => p <> []) cur) as Hcur.
    { assert (Forall (fun p => p <> []) (concat packed ++ cur)) as Hall
        by (by rewrite Hc).
      by apply Forall_app in Hall as [_ ?]. }
    pose proof (join_nonempty [SP] cur H4 Hcur) as Hj.
    destruct (join [SP] cur) as [|c line] eqn:E; [done|].
    rewrite <- E, List.map_app. simpl. rewrite <- join_lines_snoc.
    unfold flushed. by rewrite List.map_map.
  - rewrite concat_app. simpl. by rewrite app_nil_r.
  - apply Forall_app. split; [done|]. by apply Forall_singleton.
  - apply Forall_app. split; [done|]. by apply Forall_singleton.
Qed.

(** ** Classification and rendering *)

Lemma classify_filter (lines directives code_lines : list str) :
  classify lines directives code_lines
  = (directives
     ++ List.filter is_directive
          (List.filter (fun ln => negb (str_eqb ln [])) (List.map strip lines)),
     code_lines
     ++ List.filter (fun ln => negb (is_directive ln))
          (List.filter (fun ln => negb (str_eqb ln [])) (List.map strip lines))).
Proof.
  unfold is_directive. revert directives code_lines.
  induction lines as [|ln rest IH]; intros directives code_lines.
  - simpl. by rewrite !app_nil_r.
  - cbn [classify List.map List.filter].
    destruct (strip ln) as [|c r] eqn:E; [apply IH|].
    cbn [str_eqb negb List.filter].
    destruct (startswith (c :: r) [HASH]);
      cbn [negb]; rewrite IH, <- !app_assoc; done.
Qed.

Lemma classified_filter (flattened_content : str) :
  classified flattened_content
  = (List.filter is_directive (nonblank_lines (strip_comments flattened_content)),
     List.filter (fun ln => negb (is_directive ln))
       (nonblank_lines (strip_comments flattened_content))).
Proof. unfold classified. by rewrite classify_filter. Qed.

Lemma nonblank_lines_tight (text : str) : Forall tight (nonblank_lines text).
Proof.
  unfold nonblank_lines. apply Forall_forall. intros x Hx.
  apply list_elem_of_In, List.filter_In in Hx as [Hin Hne].
  apply List.in_map_iff in Hin as (ln & <- & _).
  apply strip_tight. intros E. rewrite E in Hne. done.
Qed.

Lemma Forall_filter_keep {A : Type} (P : A -> Prop) (f : A -> bool)
    (l : list A) :
  Forall P l -> Forall P (List.filter f l).
Proof.
  rewrite !Forall_forall. intros H x Hx.
  apply list_elem_of_In, List.filter_In in Hx as [Hin _].
  apply H. by apply list_elem_of_In.
Qed.

(** No line of [splitlines] holds a newline, nor does its trimmed form. *)
Lemma splitlines_no_lf (s : str) : forallb no_lf (splitlines s) = true.
Proof.
  remember (length s) as n eqn:Hn.
  assert (length s <= n)%nat as Hle by lia. clear Hn. revert s Hle.
  induction n as [|n IH]; intros [|c s] Hle; simpl in *; try done; [lia|].
  destruct (is_linebreak c) eqn:Hb.
  - destruct s as [|d s]; [done|]. simpl in Hle.
    destruct (_ && _).
    + change (forallb no_lf (splitlines s) = true). apply IH. lia.
    + change (forallb no_lf (splitlines (d :: s)) = true). apply IH.
      simpl. lia.
  - specialize (IH s ltac:(lia)).
    assert ((c =? LF)%N = false) as Hc.
    { destruct (c =? LF)%N eqn:E; [|done].
      apply N.eqb_eq in E. by subst c. }
    destruct (splitlines s) as [|l ls]; simpl in *; by rewrite Hc.
Qed.

Lemma no_lf_drop_while (f : N -> bool) (s : str) :
  no_lf s = true -> no_lf (drop_while f s) = true.
Proof.
  induction s as [|c s IH]; [done|]. simpl. intros [Hc Hs]%andb_prop.
  destruct (f c); [by apply IH|]. simpl. by rewrite Hc, Hs.
Qed.

Lemma no_lf_rev (s : str) : no_lf s = true -> no_lf (rev s) = true.
Proof.
  unfold no_lf. rewrite !forallb_forall. intros H c Hc. apply H.
  by apply List.in_rev.
Qed.

Lemma no_lf_strip (s : str) : no_lf s = true -> no_lf (strip s) = true.
Proof.
  intros H. unfold strip, rstrip, lstrip.
  by apply no_lf_rev, no_lf_drop_while, no_lf_rev, no_lf_drop_while.
Qed.

Lemma nonblank_lines_no_lf (text : str) :
  forallb no_lf (nonblank_lines text) = true.
Proof.
  unfold nonblank_lines. apply forallb_forall. intros x Hx.
  apply List.filter_In in Hx as [Hin _].
  apply List.in_map_iff in Hin as (ln & <- & Hln).
  apply no_lf_strip.
  pose proof (splitlines_no_lf text) as H. rewrite forallb_forall in H.
  by apply H.
Qed.

Lemma no_lf_join (sep : str) (parts : list str) :
  no_lf sep = true -> forallb no_lf parts = true ->
  no_lf (join sep parts) = true.
Proof.
  intros Hsep. induction parts as [|x rest IH]; [done|].
  simpl forallb. intros [Hx Hrest]%andb_prop.
  destruct rest as [|y rest]; [done|].
  change (join sep (x :: y :: rest)) with (x ++ sep ++ join sep (y :: rest)).
  unfold no_lf in *. rewrite !forallb_app, Hx, Hsep. simpl. by apply IH.
Qed.

Lemma tight_nonempty (s : str) : tight s -> s <> [].
Proof. intros [H _]. by apply head_ok_nonempty. Qed.

Lemma Forall_concat_inv {A : Type} (P : A -> Prop) (groups : list (list A)) :
  Forall P (concat groups) -> Forall (Forall P) groups.
Proof.
  induction groups as [|g groups IH]; simpl; [by constructor|].
  intros [Hg Hrest]%Forall_app. constructor; [done|]. by apply IH.
Qed.

Section Fragments.
Variable code_lines : list str.
Hypothesis code_lines_nonempty : code_lines <> [].
Hypothesis code_lines_tight : Forall tight code_lines.

Lemma fragments_tight : Forall tight (List.map minify_cpp_line code_lines).
Proof.
  apply Forall_forall. intros x Hx.
  apply list_elem_of_In, List.in_map_iff in Hx as (ln & <- & Hln).
  apply minify_tight. rewrite Forall_forall in code_lines_tight.
  apply code_lines_tight. by apply list_elem_of_In.
Qed.

Lemma fragments_nonempty :
  Forall (fun p => p <> []) (List.map minify_cpp_line code_lines).
Proof.
  eapply Forall_impl; [apply fragments_tight|]. apply tight_nonempty.
Qed.

Lemma fragments_no_lf :
  Forall (fun p => no_lf p = true) (List.map minify_cpp_line code_lines).
Proof.
  apply Forall_forall. intros x Hx.
  apply list_elem_of_In, List.in_map_iff in Hx as (ln & <- & _).
  apply minify_no_lf.
Qed.

(** The lines of the [multiline] code block: consecutive groups of
    whole fragments, each within the width unless it is one fragment
    that alone exceeds it. *)
Lemma multiline_block_groups (max_chars : Z) :
  exists groups : list (list str),
    concat groups = List.map minify_cpp_line code_lines /\
    code_block (lit "multiline") max_chars code_lines
    = join [LF] (List.map (join [SP]) groups) /\
    groups <> [] /\
    Forall (fun group => group <> [] /\ fits max_chars group) groups /\
    Forall tight (List.map (join [SP]) groups) /\
    forallb no_lf (List.map (join [SP]) groups) = true.
Proof.
  assert (List.map minify_cpp_line code_lines <> []) as Hne
    by (by destruct code_lines).
  destruct (wrapped_groups max_chars _ Hne fragments_nonempty)
    as (Hw & Hc & Hfit & Hgne).
  set (groups := fst (pack max_chars (List.map minify_cpp_line code_lines) [] [])
                 ++ [snd (pack max_chars (List.map minify_cpp_line code_lines)
                            [] [])]) in *.
  exists groups.
  pose proof fragments_tight as Ht. rewrite <- Hc in Ht.
  apply Forall_concat_inv in Ht.
  pose proof fragments_no_lf as Hn. rewrite <- Hc in Hn.
  apply Forall_concat_inv in Hn.
  repeat split.
  - done.
  - unfold code_block.
    change (str_eqb (lit "multiline") (lit "single_line")) with false.
    change (str_eqb (lit "multiline") (lit "multiline")) with true.
    done.
  - subst groups. by destruct (fst _).
  - apply Forall_forall. intros g Hg. split.
    + exact (proj1 (Forall_forall _ _) Hgne g Hg).
    + exact (proj1 (Forall_forall _ _) Hfit g Hg).
  - apply Forall_forall. intros l Hl.
    apply list_elem_of_In, List.in_map_iff in Hl as (g & <- & Hg).
    apply list_elem_of_In in Hg. apply tight_join.
    + exact (proj1 (Forall_forall _ _) Hgne g Hg).
    + exact (proj1 (Forall_forall _ _) Ht g Hg).
  - apply forallb_forall. intros l Hl.
    apply List.in_map_iff in Hl as (g & <- & Hg).
    apply list_elem_of_In in Hg.
    pose proof (proj1 (Forall_forall _ _) Hn g Hg) as Hng.
    apply no_lf_join; [done|].
    apply forallb_forall. intros p Hp.
    apply (proj1 (Forall_forall _ _) Hng). by apply list_elem_of_In.
Qed.

(** Whatever the style, the code block is a trimmed text. *)
Lemma code_block_tight (minify_style : str) (max_chars : Z) :
  tight (code_block minify_style max_chars code_lines).
Proof.
  unfold code_block.
  destruct (str_eqb minify_style (lit "single_line")).
  - apply tight_join; [by destruct code_lines|apply fragments_tight].
  - destruct (str_eqb minify_style (lit "multiline")) eqn:E.
    + apply str_eqb_eq in E. subst minify_style.
      destruct (multiline_block_groups max_chars)
        as (groups & _ & Hb & Hne & _ & Ht & _).
      unfold code_block in Hb.
      change (str_eqb (lit "multiline") (lit "single_line")) with false in Hb.
      change (str_eqb (lit "multiline") (lit "multiline")) with true in Hb.
      cbv iota in Hb. rewrite Hb.
      apply tight_join; [by destruct groups|done].
    + by apply tight_join.
Qed.

End Fragments.

Lemma code_lines_tight (flattened_content : str) :
  Forall tight (snd (classified flattened_content)).
Proof.
  rewrite classified_filter. simpl.
  apply Forall_filter_keep, nonblank_lines_tight.
Qed.

Lemma directives_tight (flattened_content : str) :
  Forall tight (fst (classified flattened_content)).
Proof.
  rewrite classified_filter. simpl.
  apply Forall_filter_keep, nonblank_lines_tight.
Qed.

(** C5. In the [multiline] style the lines of the code block are the
    space-joined members of consecutive groups of whole minified
    fragments, in order: no fragment is split.  Every line is at most
    [max_chars] long, unless it consists of one fragment that alone is
    longer than [max_chars].  This holds for every width. *)
Theorem multiline_lines_within_width (max_chars : Z)
    (flattened_content : str) :
  let code_lines := snd (classified flattened_content) in
  code_lines <> [] ->
  exists groups : list (list str),
    concat groups = List.map minify_cpp_line code_lines /\
    split_on LF (code_block (lit "multiline") max_chars code_lines)
    = List.map (join [SP]) groups /\
    Forall (fun group =>
              group <> [] /\
              ((Z.of_nat (length (join [SP] group)) <= max_chars)%Z \/
               exists part,
                 group = [part] /\ (max_chars < Z.of_nat (length part))%Z))
      groups.
Proof.
  intros code_lines Hne.
  destruct (multiline_block_groups code_lines Hne
              (code_lines_tight flattened_content) max_chars)
    as (groups & Hc & Hb & Hgne & Hfit & _ & Hlf).
  exists groups. split; [done|]. split; [|done].
  rewrite Hb. apply split_on_join; [by destruct groups|done].
Qed.

Lemma join_flatten (sep : str) (a b : list str) :
  b <> [] -> join sep (a ++ [join sep b]) = join sep (a ++ b).
Proof.
  intros Hb. destruct a as [|x a]; [done|].
  rewrite join_snoc by done. by rewrite join_app.
Qed.

Lemma strip_leading_lf (s : str) : tight s -> strip (LF :: s) = s.
Proof.
  intros Ht. unfold strip, lstrip. simpl drop_while.
  apply (tight_strip s Ht).
Qed.

Lemma singletons_join (lines : list str) :
  List.map (join [SP]) (List.map (fun ln => [ln]) lines) = lines.
Proof. induction lines as [|ln lines IH]; [done|]. simpl. by rewrite IH. Qed.

Lemma singletons_concat (lines : list str) :
  concat (List.map (fun ln => [ln]) lines) = lines.
Proof. induction lines as [|ln lines IH]; [done|]. simpl. by rewrite IH. Qed.

(** The code block of every style, as lines made of groups of
    fragments. *)
Lemma code_block_groups (minify_style : str) (max_chars : Z)
    (code_lines : list str) :
  code_lines <> [] -> Forall tight code_lines ->
  forallb no_lf code_lines = true ->
  exists code : list (list str),
    code_block minify_style max_chars code_lines
    = join [LF] (List.map (join [SP]) code) /\
    code <> [] /\
    concat code
    = (if str_eqb minify_style (lit "single_line")
          || str_eqb minify_style (lit "multiline")
       then List.map minify_cpp_line code_lines
       else code_lines) /\
    Forall (fun group => group <> []) code /\
    (minify_style = lit "single_line" -> length code = 1%nat) /\
    forallb no_lf (List.map (join [SP]) code) = true.
Proof.
  intros Hne Ht Hn.
  destruct (str_eqb minify_style (lit "single_line")) eqn:E1.
  - exists [List.map minify_cpp_line code_lines].
    unfold code_block. rewrite E1. split; [done|]. split; [done|].
    split; [simpl; by rewrite app_nil_r|]. split.
    + apply Forall_singleton. by destruct code_lines.
    + split; [done|]. simpl. rewrite andb_true_r.
      apply no_lf_join; [done|]. apply forallb_forall. intros x Hx.
      apply List.in_map_iff in Hx as (l & <- & _). apply minify_no_lf.
  - destruct (str_eqb minify_style (lit "multiline")) eqn:E2.
    + apply str_eqb_eq in E2. subst minify_style.
      destruct (multiline_block_groups code_lines Hne Ht max_chars)
        as (groups & Hc & Hb & Hgne & Hfit & _ & Hnl).
      exists groups. split; [done|]. split; [done|]. split; [done|].
      split; [|split; [done|done]].
      eapply Forall_impl; [exact Hfit|]. by intros g [? _].
    + exists (List.map (fun ln => [ln]) code_lines).
      unfold code_block. rewrite E1, E2, singletons_join, singletons_concat.
      split; [done|]. split; [by destruct code_lines|]. split; [done|].
      split; [|split; [|done]].
      * apply Forall_forall. intros g Hg.
        apply list_elem_of_In, List.in_map_iff in Hg as (ln & <- & _). done.
      * intros ->. done.
Qed.

(** C4. Whatever the style, the rendered block is the newline-joined
    list of the directive lines followed by the lines of the code.  The
    directive lines are the trimmed non-blank lines of the
    comment-stripped text that begin with [#], the code lines are the
    other trimmed non-blank lines, each group in the order of the
    input, and no blank line is in either group.  Every line of the
    code is the space-joined list of a group of fragments, and the
    groups put one after the other are the code lines in their order:
    as they are in the [none] style, one per line, and each minified in
    the [single_line] style, where there is one line, and in the
    [multiline] style.  No line of the block holds a newline, so the
    directive lines are the first lines of the block. *)
Theorem directives_precede_code (minify_style : str) (max_chars : Z)
    (flattened_content : str) :
  let lines :=
    List.filter (fun ln => negb (str_eqb ln []))
      (List.map strip (splitlines (strip_comments flattened_content))) in
  let directives := List.filter (fun ln => startswith ln [HASH]) lines in
  let code_lines :=
    List.filter (fun ln => negb (startswith ln [HASH])) lines in
  classified flattened_content = (directives, code_lines) /\
  rendered minify_style max_chars flattened_content
  = join [LF]
      (directives
       ++ match code_lines with
          | [] => []
          | _ :: _ => [code_block minify_style max_chars code_lines]
          end) /\
  (exists code : list (list str),
     rendered minify_style max_chars flattened_content
     = join [LF] (directives ++ List.map (join [SP]) code) /\
     concat code
     = (if str_eqb minify_style (lit "single_line")
           || str_eqb minify_style (lit "multiline")
        then List.map minify_cpp_line code_lines
        else code_lines) /\
     Forall (fun group => group <> []) code /\
     (minify_style = lit "single_line" -> (length code <= 1)%nat) /\
     forallb no_lf (directives ++ List.map (join [SP]) code) = true) /\
  (minify_style <> lit "single_line" -> minify_style <> lit "multiline" ->
   rendered minify_style max_chars flattened_content
   = join [LF] (directives ++ code_lines)) /\
  forallb no_lf (directives ++ code_lines) = true.
Proof.
  intros lines directives code_lines.
  pose proof (classified_filter flattened_content) as Hcl.
  change (classified flattened_content = (directives, code_lines)) in Hcl.
  pose proof (directives_tight flattened_content) as Hd.
  pose proof (code_lines_tight flattened_content) as Hc.
  rewrite Hcl in Hd, Hc. simpl in Hd, Hc.
  assert (forallb no_lf directives = true /\ forallb no_lf code_lines = true)
    as [Hdn Hcn].
  { pose proof (nonblank_lines_no_lf (strip_comments flattened_content)) as Hn.
    change (forallb no_lf lines = true) in Hn.
    rewrite forallb_forall in Hn.
    split; apply forallb_forall; intros x Hx;
      apply List.filter_In in Hx as [Hx _]; by apply Hn. }
  assert (rendered minify_style max_chars flattened_content
          = join [LF]
              (directives
               ++ match code_lines with
                  | [] => []
                  | _ :: _ => [code_block minify_style max_chars code_lines]
                  end)) as Hr.
  { unfold rendered, final_content. rewrite Hcl.
    destruct code_lines as [|ln code_lines'] eqn:Hcode.
    - rewrite app_nil_r. destruct directives as [|d ds] eqn:Hdir; [done|].
      apply tight_strip. by apply tight_join.
    - rewrite <- Hcode in *.
      assert (code_lines <> []) as Hne by (by rewrite Hcode).
      pose proof (code_block_tight code_lines Hne Hc minify_style max_chars)
        as Hb.
      destruct directives as [|d ds] eqn:Hdir.
      + by apply strip_leading_lf.
      + rewrite <- Hdir in *. rewrite <- join_snoc by (by rewrite Hdir).
        apply tight_strip. apply tight_join; [by rewrite Hdir|].
        apply Forall_app. split; [done|]. by apply Forall_singleton. }
  split; [done|]. split; [done|]. split; [|split].
  - rewrite Hr.
    destruct code_lines as [|ln code_lines'] eqn:Hcode.
    + exists []. split; [done|]. split; [by destruct (_ || _)|].
      split; [done|]. split; [simpl; lia|]. by rewrite app_nil_r.
    + rewrite <- Hcode in *.
      assert (code_lines <> []) as Hne by (by rewrite Hcode).
      destruct (code_block_groups minify_style max_chars code_lines Hne Hc Hcn)
        as (code & Hb & Hcne & Hcc & Hg & Hone & Hnl).
      exists code. rewrite Hb. split.
      * apply join_flatten. by destruct code.
      * split; [done|]. split; [done|]. split.
        -- intros E. rewrite (Hone E). lia.
        -- by rewrite forallb_app, Hdn, Hnl.
  - intros H1 H2. rewrite Hr.
    destruct code_lines as [|ln code_lines'] eqn:Hcode; [done|].
    rewrite <- Hcode.
    assert (code_block minify_style max_chars code_lines
            = join [LF] code_lines) as ->.
    { unfold code_block.
      destruct (str_eqb minify_style (lit "single_line")) eqn:E1;
        [by apply str_eqb_eq in E1|].
      destruct (str_eqb minify_style (lit "multiline")) eqn:E2;
        [by apply str_eqb_eq in E2|]. done. }
    apply join_flatten. by rewrite Hcode.
  - by rewrite forallb_app, Hdn, Hcn.
Qed.

Lemma multiline_lines_within_width_witness :
  exists groups : list (list str),
    concat groups
    = List.map minify_cpp_line (snd (classified DemoRuns.a_text)) /\
    split_on LF (code_block (lit "multiline") 20
                   (snd (classified DemoRuns.a_text)))
    = List.map (join [SP]) groups /\
    Forall (fun group =>
              group <> [] /\
              ((Z.of_nat (length (join [SP] group)) <= 20)%Z \/
               exists part,
                 group = [part] /\ (20 < Z.of_nat (length part))%Z))
      groups.
Proof.
  apply (multiline_lines_within_width 20 DemoRuns.a_text).
  vm_compute. discriminate.
Defined.

(** ** Worked examples *)

Example spec_example_none :
  Examples.output
    (process_lines (W:=Examples.world) (lit "/w") (Demo.cfg "none")
       (file_lines Examples.a_cpp) [] [])
  = join [LF]
      [ lit "int main() {}";
        lit "// --- Start of inlined file: b.h ---";
        lit "#define FOO 1";
        lit "int x=1;";
        lit "// --- End of inlined file: b.h ---"; [] ].
Proof. vm_compute. reflexivity. Qed.

Example spec_example_single_line :
  Examples.output
    (process_lines (W:=Examples.world) (lit "/w") (Demo.cfg "single_line")
       (file_lines Examples.a_cpp) [] [])
  = join [LF]
      [ lit "int main() {}";
        lit "// --- Start of inlined file: b.h ---";
        lit "#define FOO 1";
        lit "int x=1;";
        lit "// --- End of inlined file: b.h ---"; [] ].
Proof. vm_compute. reflexivity. Qed.

(** The diamond and the cycle of [Demo]: [d.h] is inlined where [b.h]
    includes it, and the includes met later leave empty lines. *)
Example demo_none :
  Examples.output
    (process_lines (W:=Demo.world) (lit "/w") (Demo.cfg "none")
       (file_lines Demo.main_cpp) [] [])
  = join [LF]
      [ lit "int main();";
        lit "// --- Start of inlined file: a.h ---";
        lit "#define D 1"; lit "int d = 1;"; lit "int b;"; lit "int c;";
        lit "int a;";
        lit "// --- End of inlined file: a.h ---";
        lit "// --- Start of inlined file: missing.h ---";
        [];
        lit "// --- End of inlined file: missing.h ---";
        Demo.inc "" ++ lit " //@";
        Demo.inc "leaf.h"; [] ].
Proof. vm_compute. reflexivity. Qed.

Example demo_multiline :
  rendered (lit "multiline") 20 DemoRuns.a_text
  = join [LF] [ lit "#define D 1"; lit "int d=1; int b;"; lit "int c; int a;" ].
Proof. vm_compute. reflexivity. Qed.

(** A fragment longer than the width stands alone on its line. *)
Example wrapped_long_fragment :
  wrapped 10 [lit "a;"; lit "b;"; lit "a_very_long_fragment;"; lit "c;"]
  = join [LF] [ lit "a; b;"; lit "a_very_long_fragment;"; lit "c;" ].
Proof. vm_compute. reflexivity. Qed.

Example strip_comments_example :
  strip_comments
    (lit "int x; /* a // b" ++ [LF] ++ lit " c */ int y; // d" ++ [LF]
     ++ lit "int z;")
  = lit "int x;  int y; " ++ [LF] ++ lit "int z;".
Proof. vm_compute. reflexivity. Qed.

Example minify_example :
  minify_cpp_line (lit "for ( int i = 0 ;  i < n ; ++i )  { x [ i ] = y ; }")
  = lit "for(int i=0;i<n;++i){x[i]=y;}".
Proof. vm_compute. reflexivity. Qed.

(** A header that includes itself is inlined once. *)
Example self_include :
  recursively_inline
    (W:=Posix.world (lit "/w")
          (list_to_map
             [ (lit "/w/s.h",
                Text (join [LF] [ lit "int s;"; Demo.inc "s.h"; lit "int t;" ])) ]))
    (lit "s.h") Demo.st0
  = Return (join [LF] [ lit "int s;"; []; lit "int t;" ])
      {| seen_files := {[ lit "/w/s.h" ]} ∪ ∅;
         trace := [ Open (lit "/w/s.h"); Print (msg_nested (lit "s.h")) ] |}.
Proof. vm_compute. reflexivity. Qed.

(** * Further properties *)

(** ** The orchestrator on whole files *)

Lemma concat_file_lines (s : str) : concat (file_lines s) = s.
Proof.
  induction s as [|c s IH]; [done|]. simpl.
  destruct (c =? LF)%N.
  - simpl. by rewrite IH.
  - destruct (file_lines s) as [|l ls]; simpl in *; by rewrite <- IH.
Qed.

Lemma endswith_app (a p : str) : endswith (a ++ p) p = true.
Proof. unfold endswith. rewrite rev_app_distr. apply startswith_app. Qed.

Lemma search_include_head (name trailing : str) :
  name <> [] ->
  forallb (fun c => negb (c =? DQ)%N) name = true ->
  search_include (include_prefix ++ name ++ DQ :: trailing) = Some name.
Proof.
  intros Hne Hq.
  pose proof (include_at_intro name trailing Hne Hq) as H.
  change (include_prefix ++ name ++ DQ :: trailing)
    with (HASH :: (lit "include " ++ [DQ]) ++ name ++ DQ :: trailing) in *.
  cbn [search_include]. by rewrite H.
Qed.

Section WholeFiles.
Context {W : World}.

Lemma process_line_unmarked (source_directory : str) (cfg : config)
    (line outfile : str) (tr : list event) :
  is_marked line = false ->
  process_line source_directory cfg line outfile tr
  = Completed (outfile ++ line) tr.
Proof. unfold is_marked, process_line. cbv zeta. by intros ->. Qed.

Lemma process_lines_unmarked (source_directory : str) (cfg : config)
    (lines : list str) (outfile : str) (tr : list event) :
  forallb (fun line => negb (is_marked line)) lines = true ->
  process_lines source_directory cfg lines outfile tr
  = Completed (outfile ++ concat lines) tr.
Proof.
  revert outfile. induction lines as [|line rest IH]; intros outfile; simpl.
  - intros _. by rewrite app_nil_r.
  - intros [Hl Hrest]%andb_prop. apply negb_true_iff in Hl.
    rewrite process_line_unmarked by done. rewrite IH by done.
    by rewrite <- app_assoc.
Qed.

(** X1. When no line of the text read from the input is a marked
    include, the loop writes that text as it is, line after line and
    nothing else, prints nothing and opens no header. *)
Theorem unmarked_text_written_verbatim (source_directory : str)
    (cfg : config) (content : str) (outfile : str) (tr : list event) :
  forallb (fun line => negb (is_marked line)) (file_lines content) = true ->
  process_lines source_directory cfg (file_lines content) outfile tr
  = Completed (outfile ++ content) tr.
Proof.
  intros Hplain. rewrite process_lines_unmarked by done.
  by rewrite concat_file_lines.
Qed.

(** The trace is only written: events that are already there come out
    unchanged in front of the new ones, and change nothing else. *)
Lemma inline_lines_traced (rec : str -> state -> outcome str)
    (tr : list event) (header_dir : str) (lines processed_lines : list str)
    (st : state) :
  (forall path st, rec path (traced tr st) = traced_outcome tr (rec path st)) ->
  inline_lines rec header_dir lines processed_lines (traced tr st)
  = traced_outcome tr (inline_lines rec header_dir lines processed_lines st).
Proof.
  intros Hrec. revert processed_lines st.
  induction lines as [|line rest IH]; intros processed_lines st; [done|].
  simpl. destruct (match_local_include line) as [name|].
  - change (print (msg_nested name) (traced tr st))
      with (Build_state (seen_files st)
              ((tr ++ trace st) ++ [Print (msg_nested name)])).
    rewrite <- app_assoc.
    change (Build_state (seen_files st)
              (tr ++ trace st ++ [Print (msg_nested name)]))
      with (traced tr (print (msg_nested name) st)).
    rewrite Hrec. destruct (rec _ _); simpl; [apply IH|done|done].
  - destruct (str_eqb _ _); apply IH.
Qed.

Lemma recursively_inline_fuel_traced (fuel : nat) (tr : list event)
    (header_path : str) (st : state) :
  recursively_inline_fuel fuel header_path (traced tr st)
  = traced_outcome tr (recursively_inline_fuel fuel header_path st).
Proof.
  revert header_path st.
  induction fuel as [|fuel IH]; intros header_path st; [done|].
  rewrite !recursively_inline_fuel_eq. cbv zeta.
  change (seen_files (traced tr st)) with (seen_files st).
  destruct (decide _); [done|].
  destruct (files !! abspath header_path) as [[content|e]|].
  - change (opened (abspath header_path)
              (add_seen (abspath header_path) (traced tr st)))
      with (Build_state ({[abspath header_path]} ∪ seen_files st)
              ((tr ++ trace st) ++ [Open (abspath header_path)])).
    rewrite <- app_assoc.
    change (Build_state ({[abspath header_path]} ∪ seen_files st)
              (tr ++ trace st ++ [Open (abspath header_path)]))
      with (traced tr (opened (abspath header_path)
                         (add_seen (abspath header_path) st))).
    rewrite (inline_lines_traced _ tr) by apply IH.
    by destruct (inline_lines _ _ _ _ _).
  - done.
  - simpl. unfold traced, print, add_seen. simpl. by rewrite <- app_assoc.
Qed.

Lemma process_line_after (source_directory : str) (cfg : config)
    (line outfile : str) (tr : list event) :
  process_line source_directory cfg line outfile tr
  = after outfile tr (process_line source_directory cfg line [] []).
Proof.
  unfold process_line. cbv zeta.
  destruct (_ && _); [|by simpl; rewrite app_nil_r].
  destruct (search_include (strip line)) as [header_name|];
    [|by simpl; rewrite app_nil_r].
  change (Build_state ∅
            (tr ++ [Print (msg_inlining header_name (minify_style cfg))]))
    with (traced tr
            (Build_state ∅
               ([] ++ [Print (msg_inlining header_name (minify_style cfg))]))).
  unfold recursively_inline. rewrite recursively_inline_fuel_traced.
  destruct (recursively_inline_fuel _ _ _) as [text st|e st|]; simpl.
  - done.
  - by rewrite app_nil_r, <- app_assoc.
  - by rewrite !app_nil_r.
Qed.

Lemma after_after (outfile outfile' : str) (tr tr' : list event) (r : run) :
  after outfile tr (after outfile' tr' r)
  = after (outfile ++ outfile') (tr ++ tr') r.
Proof. destruct r; simpl; by rewrite <- !app_assoc. Qed.

Lemma process_lines_after (source_directory : str) (cfg : config)
    (lines : list str) (outfile : str) (tr : list event) :
  process_lines source_directory cfg lines outfile tr
  = after outfile tr (process_lines source_directory cfg lines [] []).
Proof.
  revert outfile tr.
  induction lines as [|line rest IH]; intros outfile tr; simpl.
  - by rewrite !app_nil_r.
  - rewrite process_line_after.
    destruct (process_line source_directory cfg line [] []) as [o t|o t];
      simpl; [|done].
    rewrite IH. rewrite (IH o t). by rewrite after_after.
Qed.

(** X2. Every marked include starts from an empty visited set, so what
    a stretch of lines writes and prints does not depend on what was
    written or printed before it: processing two stretches one after
    the other gives the output and the trace of the first followed by
    those of the second processed on its own, unless the first exits. *)
Theorem process_lines_app (source_directory : str) (cfg : config)
    (lines1 lines2 : list str) (outfile : str) (tr : list event) :
  process_lines source_directory cfg (lines1 ++ lines2) outfile tr
  = match process_lines source_directory cfg lines1 outfile tr with
    | Completed outfile1 tr1 =>
        after outfile1 tr1 (process_lines source_directory cfg lines2 [] [])
    | Exited outfile1 tr1 => Exited outfile1 tr1
    end.
Proof.
  revert outfile tr.
  induction lines1 as [|line rest IH]; intros outfile tr; simpl.
  - apply process_lines_after.
  - destruct (process_line source_directory cfg line outfile tr); [|done].
    apply IH.
Qed.

(** X3. A line whose trimmed form is [#include], a quoted non-empty
    name, any text and the mark [//@] is replaced by the start marker
    of that name, the rendering of the text flattened from that name
    in the source directory with an empty visited set, a newline, and
    the end marker; the name is the first quoted one. *)
Theorem marked_include_block (source_directory : str) (cfg : config)
    (line name mid : str) (outfile : str) (tr : list event)
    (text : str) (st' : state) :
  strip line = lit "#include " ++ [DQ] ++ name ++ [DQ] ++ mid ++ lit "//@" ->
  name <> [] ->
  forallb (fun c => negb (c =? DQ)%N) name = true ->
  recursively_inline (path_join source_directory name)
    {| seen_files := ∅;
       trace := tr ++ [Print (msg_inlining name (minify_style cfg))] |}
  = Return text st' ->
  process_line source_directory cfg line outfile tr
  = Completed
      (outfile ++ start_marker name
       ++ rendered (minify_style cfg) (multiline_max_chars cfg) text ++ [LF]
       ++ end_marker name)
      (trace st').
Proof.
  intros Hstrip Hne Hq Hrun. unfold process_line. cbv zeta.
  assert (strip line
          = include_prefix ++ name ++ DQ :: (mid ++ marked_suffix)) as Hs.
  { rewrite Hstrip. unfold include_prefix, marked_suffix.
    by rewrite <- !app_assoc. }
  assert (startswith (strip line) include_prefix = true) as ->
    by (rewrite Hs; apply startswith_app).
  assert (endswith (strip line) marked_suffix = true) as ->.
  { rewrite Hs.
    change (DQ :: (mid ++ marked_suffix)) with ([DQ] ++ mid ++ marked_suffix).
    rewrite !app_assoc. apply endswith_app. }
  cbn [andb]. rewrite Hs, search_include_head by done.
  rewrite Hrun. by rewrite <- !app_assoc.
Qed.

(** X4. A marked include whose header exists but cannot be read (a
    directory, a permission error) ends the run: the error is printed,
    nothing is written for this line, and no later line is processed. *)
Theorem unreadable_header_aborts (source_directory : str) (cfg : config)
    (line header_name e : str) (rest : list str) (outfile : str)
    (tr : list event) :
  is_marked line = true ->
  search_include (strip line) = Some header_name ->
  files !! abspath (path_join source_directory header_name)
  = Some (Unreadable e) ->
  process_lines source_directory cfg (line :: rest) outfile tr
  = Exited outfile
      (tr ++ [ Print (msg_inlining header_name (minify_style cfg));
               Print (msg_unexpected e) ]).
Proof.
  intros Hm Hsearch Hf. unfold is_marked in Hm. simpl.
  unfold process_line. cbv zeta. rewrite Hm, Hsearch.
  rewrite recursively_inline_unfold. cbv zeta.
  destruct (decide _) as [Hin|_]; [set_solver|]. rewrite Hf.
  cbn [add_seen trace]. by rewrite <- app_assoc.
Qed.

End WholeFiles.

(** ** Comment stripping, once more *)

(** X5. Comment stripping never lengthens a text, and it leaves a
    text unchanged exactly when the text holds neither a complete
    block comment nor [//]. *)
Theorem strip_comments_fixpoint_iff (content : str) :
  (length (strip_comments content) <= length content)%nat /\
  (strip_comments content = content
   <-> matches_somewhere block_comment content = false /\
       matches_somewhere line_comment content = false).
Proof.
  pose proof (re_sub_erasing_length block_comment content
                block_comment_shrinks block_comment_erases) as [Hb1 Hb2].
  pose proof (re_sub_erasing_length line_comment
                (re_sub block_comment content)
                line_comment_shrinks line_comment_erases) as [Hl1 Hl2].
  unfold strip_comments. split; [lia|]. split.
  - intros Heq.
    destruct (matches_somewhere block_comment content) eqn:Hb.
    + specialize (Hb2 eq_refl). rewrite Heq in Hl1. lia.
    + rewrite (re_sub_no_match block_comment block_comment_shrinks _ Hb)
        in Heq, Hl2.
      destruct (matches_somewhere line_comment content); [|done].
      specialize (Hl2 eq_refl). rewrite Heq in Hl2. lia.
  - intros [Hb Hl].
    rewrite (re_sub_no_match block_comment block_comment_shrinks _ Hb).
    by apply re_sub_no_match; [apply line_comment_shrinks|].
Qed.

(** ** Minification, once more *)

Lemma head_space_drop_while (s : str) :
  head_space (drop_while isspace s) = false.
Proof.
  destruct (drop_while isspace s) as [|c r] eqn:E; [done|].
  by apply drop_while_stops in E.
Qed.

Lemma drop_while_no_head_space (s : str) :
  head_space s = false -> drop_while isspace s = s.
Proof. destruct s as [|c s]; [done|]. simpl. by intros ->. Qed.

Lemma single_spaced_suffix (a b : str) :
  single_spaced (a ++ b) = true -> single_spaced b = true.
Proof.
  induction a as [|c a IH]; [done|]. simpl.
  intros [_ H]%andb_prop. by apply IH.
Qed.

Lemma single_spaced_drop_while (s : str) :
  single_spaced s = true -> single_spaced (drop_while isspace s) = true.
Proof.
  destruct (drop_while_suffix isspace s) as (a & Hs & _).
  intros H. rewrite Hs in H. by apply single_spaced_suffix in H.
Qed.

Lemma ws_run_single_spaced (s : str) :
  single_spaced (re_sub ws_run s) = true /\
  (head_space (re_sub ws_run s) = true -> head_space s = true).
Proof.
  apply (re_sub_ind ws_run ws_run_shrinks
           (fun s out =>
              single_spaced out = true /\
              (head_space out = true -> head_space s = true))).
  - intros s0 repl rest Hm [IH1 IH2]. unfold ws_run in Hm.
    destruct s0 as [|c s0]; [done|].
    destruct (isspace c) eqn:Hc; [|done]. injection Hm as <- <-.
    split; [|done]. simpl. rewrite IH1, andb_true_r.
    destruct (head_space (re_sub ws_run (drop_while isspace s0))) eqn:E;
      [|done].
    specialize (IH2 eq_refl). by rewrite head_space_drop_while in IH2.
  - done.
  - intros c s0 Hm [IH1 IH2]. unfold ws_run in Hm.
    destruct (isspace c) eqn:Hc; [done|]. simpl. rewrite Hc.
    split; [done|]. done.
Qed.

Lemma ws_run_fixed (s : str) :
  single_spaced s = true -> re_sub ws_run s = s.
Proof.
  induction s as [|c s IH]; intros H.
  - by apply re_sub_nil.
  - simpl in H. apply andb_prop in H as [Hc Hs].
    rewrite (re_sub_unfold ws_run ws_run_shrinks). simpl.
    destruct (isspace c).
    + apply andb_prop in Hc as [Hsp Hh]. apply N.eqb_eq in Hsp.
      apply negb_true_iff in Hh. subst c.
      rewrite drop_while_no_head_space by done. simpl. by rewrite IH.
    + by rewrite IH.
Qed.

Lemma tight_punct_copy (c : N) (s : str) :
  tight_punct (c :: s) = None -> is_punct c = false.
Proof.
  unfold tight_punct. simpl. destruct (isspace c) eqn:Hc.
  - intros _. destruct (is_punct c) eqn:Hp; [|done].
    apply is_punct_not_space in Hp. congruence.
  - by destruct (is_punct c).
Qed.

Lemma tight_punct_skip (c : N) (s : str) :
  isspace c = true -> tight_punct (c :: s) = tight_punct s.
Proof. intros Hc. unfold tight_punct. simpl. by rewrite Hc. Qed.

Lemma tight_punct_single_spaced (s : str) :
  single_spaced s = true ->
  single_spaced (re_sub tight_punct s) = true /\
  (head_space (re_sub tight_punct s) = true -> head_space s = true).
Proof.
  apply (re_sub_ind tight_punct tight_punct_shrinks
           (fun s out =>
              single_spaced s = true ->
              single_spaced out = true /\
              (head_space out = true -> head_space s = true))).
  - intros s0 repl rest Hm IH Hs. unfold tight_punct in Hm.
    apply single_spaced_drop_while in Hs.
    destruct (drop_while isspace s0) as [|c s1]; [done|].
    destruct (is_punct c) eqn:Hp; [|done]. injection Hm as <- <-.
    simpl in Hs. apply andb_prop in Hs as [_ Hs].
    destruct (IH (single_spaced_drop_while _ Hs)) as [IH1 _].
    simpl. rewrite (is_punct_not_space c Hp). by split.
  - done.
  - intros c s0 Hm IH Hs. simpl in Hs. apply andb_prop in Hs as [Hc Hs].
    destruct (IH Hs) as [IH1 IH2]. split; [|done].
    simpl. rewrite IH1, andb_true_r.
    destruct (isspace c); [|done].
    apply andb_prop in Hc as [Hsp Hh]. rewrite Hsp. simpl.
    destruct (head_space (re_sub tight_punct s0)) eqn:E; [|done].
    specialize (IH2 eq_refl). by rewrite IH2 in Hh.
Qed.

Lemma tight_punct_punct_tight (s : str) :
  punct_tight (re_sub tight_punct s) = true /\
  (head_space (re_sub tight_punct s) = true -> head_space s = true) /\
  (head_punct (re_sub tight_punct s) = true -> tight_punct s <> None).
Proof.
  apply (re_sub_ind tight_punct tight_punct_shrinks
           (fun s out =>
              punct_tight out = true /\
              (head_space out = true -> head_space s = true) /\
              (head_punct out = true -> tight_punct s <> None))).
  - intros s0 repl rest Hm (IH1 & IH2 & _).
    split; [|split; [|by rewrite Hm]].
    + unfold tight_punct in Hm.
      destruct (drop_while isspace s0) as [|c s1]; [done|].
      destruct (is_punct c) eqn:Hp; [|done]. injection Hm as <- <-.
      simpl. rewrite IH1, (is_punct_not_space c Hp), Hp. simpl.
      destruct (head_space (re_sub tight_punct (drop_while isspace s1)))
        eqn:E; [|done].
      specialize (IH2 eq_refl). by rewrite head_space_drop_while in IH2.
    + unfold tight_punct in Hm.
      destruct (drop_while isspace s0) as [|c s1]; [done|].
      destruct (is_punct c) eqn:Hp; [|done]. injection Hm as <- <-.
      simpl. by rewrite (is_punct_not_space c Hp).
  - done.
  - intros c s0 Hm (IH1 & IH2 & IH3).
    pose proof (tight_punct_copy c s0 Hm) as Hp.
    split; [|split; [done|]].
    + simpl. rewrite IH1, Hp. simpl. rewrite !andb_true_r.
      destruct (isspace c) eqn:Hc; [|done]. simpl.
      destruct (head_punct (re_sub tight_punct s0)) eqn:E; [|done].
      specialize (IH3 eq_refl). by rewrite tight_punct_skip in Hm.
    + simpl. by rewrite Hp.
Qed.

Lemma punct_tight_space_none (c : N) (s : str) :
  punct_tight (c :: s) = true -> isspace c = true ->
  tight_punct (c :: s) = None.
Proof.
  revert c. induction s as [|d s IH]; intros c H Hc.
  - unfold tight_punct. simpl. by rewrite Hc.
  - rewrite tight_punct_skip by done.
    simpl in H. rewrite Hc in H. simpl in H.
    apply andb_prop in H as [H1 H2]. apply andb_prop in H1 as [Hd _].
    apply negb_true_iff in Hd.
    destruct (isspace d) eqn:Hsd.
    + apply IH; [|done]. simpl. rewrite Hsd. exact H2.
    + unfold tight_punct. simpl. by rewrite Hsd, Hd.
Qed.

Lemma tight_punct_no_skip (c : N) (s : str) :
  isspace c = false ->
  tight_punct (c :: s)
  = if is_punct c then Some ([c], drop_while isspace s) else None.
Proof. intros Hc. unfold tight_punct. simpl. by rewrite Hc. Qed.

Lemma tight_punct_fixed (s : str) :
  punct_tight s = true -> re_sub tight_punct s = s.
Proof.
  induction s as [|c s IH]; intros H.
  - by apply re_sub_nil.
  - rewrite (re_sub_unfold tight_punct tight_punct_shrinks).
    pose proof H as H'. simpl in H'.
    apply andb_prop in H' as [H1 Hs]. apply andb_prop in H1 as [_ H2].
    destruct (isspace c) eqn:Hc.
    + rewrite (punct_tight_space_none c s H Hc). by rewrite IH.
    + rewrite tight_punct_no_skip by done.
      destruct (is_punct c); [|by rewrite IH].
      simpl in H2. apply negb_true_iff in H2.
      rewrite drop_while_no_head_space by done. simpl. by rewrite IH.
Qed.

(** X6. Minification is idempotent: a minified line is left unchanged
    by another minification. *)
Theorem minify_cpp_line_idempotent (line : str) :
  minify_cpp_line (minify_cpp_line line) = minify_cpp_line line.
Proof.
  unfold minify_cpp_line.
  destruct (ws_run_single_spaced line) as [Hs _].
  destruct (tight_punct_single_spaced _ Hs) as [Hs' _].
  destruct (tight_punct_punct_tight (re_sub ws_run line)) as [Hp _].
  rewrite (ws_run_fixed _ Hs'). by apply tight_punct_fixed.
Qed.

(** ** The styles compared *)

Lemma join_head_length (sep part : str) (rest : list str) :
  (length part <= length (join sep (part :: rest)))%nat.
Proof.
  destruct rest as [|y rest]; [done|].
  change (join sep (part :: y :: rest))
    with (part ++ sep ++ join sep (y :: rest)).
  rewrite length_app. lia.
Qed.

Lemma pack_one_line (max_chars : Z) (parts : list str)
    (packed : list (list str)) (cur : list str) :
  (Z.of_nat (length (join [SP] (cur ++ parts))) <= max_chars)%Z ->
  pack max_chars parts packed cur = (packed, cur ++ parts).
Proof.
  revert cur. induction parts as [|part rest IH]; intros cur Hfit.
  - by rewrite app_nil_r.
  - destruct cur as [|x cur].
    + simpl. by rewrite (IH [part]).
    + cbn [pack].
      assert ((Z.of_nat (length (join [SP] (x :: cur)))
               + Z.of_nat (length part) + 1 <=? max_chars)%Z = true) as ->.
      { apply Z.leb_le. rewrite join_app in Hfit by done.
        rewrite !length_app in Hfit.
        pose proof (join_head_length [SP] part rest).
        change (length [SP]) with 1%nat in Hfit. lia. }
      rewrite (IH ((x :: cur) ++ [part])); rewrite <- app_assoc; done.
Qed.

Lemma wrapped_one_line (max_chars : Z) (parts : list str) :
  Forall (fun p => p <> []) parts ->
  (Z.of_nat (length (join [SP] parts)) <= max_chars)%Z ->
  wrapped max_chars parts = join [SP] parts.
Proof.
  intros Hne Hfit. unfold wrapped.
  pose proof (wrap_pack max_chars parts [] [] Hne (Forall_nil_2 _)) as Hw.
  rewrite (pack_one_line max_chars parts [] []) in Hw by done.
  change (flushed []) with (@nil N) in Hw.
  change (join [SP] []) with (@nil N) in Hw.
  rewrite Hw. simpl. by destruct (join [SP] parts).
Qed.

(** X7. When the code joined on one line is at most [max_chars] long,
    the [multiline] style renders exactly what the [single_line] style
    renders. *)
Theorem multiline_is_single_line_when_it_fits (max_chars : Z)
    (flattened_content : str) :
  (Z.of_nat
     (length (join [SP]
                (List.map minify_cpp_line (snd (classified flattened_content)))))
   <= max_chars)%Z ->
  rendered (lit "multiline") max_chars flattened_content
  = rendered (lit "single_line") max_chars flattened_content.
Proof.
  intros Hfit. unfold rendered, final_content.
  pose proof (code_lines_tight flattened_content) as Ht.
  destruct (classified flattened_content) as [directives code_lines].
  simpl in Hfit, Ht.
  destruct code_lines as [|ln code_lines]; [done|].
  do 3 f_equal. unfold code_block.
  change (str_eqb (lit "multiline") (lit "single_line")) with false.
  change (str_eqb (lit "multiline") (lit "multiline")) with true.
  change (str_eqb (lit "single_line") (lit "single_line")) with true.
  cbv iota. apply wrapped_one_line; [|done].
  by apply fragments_nonempty.
Qed.

Lemma concat_map_concat {A B : Type} (f : A -> list B) (groups : list (list A)) :
  concat (List.map (fun g => concat (List.map f g)) groups)
  = concat (List.map f (concat groups)).
Proof.
  induction groups as [|g groups IH]; [done|]. simpl.
  by rewrite List.map_app, concat_app, IH.
Qed.

(** X8. The output of the [multiline] style holds the same sequence of
    non-whitespace characters as the output of the [none] style:
    packing the fragments into lines loses and adds nothing but
    whitespace. *)
Theorem multiline_keeps_non_whitespace (max_chars : Z)
    (flattened_content : str) :
  remove_ws (rendered (lit "multiline") max_chars flattened_content)
  = remove_ws (rendered (lit "none") max_chars flattened_content).
Proof.
  unfold rendered. rewrite !remove_ws_strip. unfold final_content.
  pose proof (code_lines_tight flattened_content) as Ht.
  destruct (classified flattened_content) as [directives code_lines].
  simpl in Ht.
  destruct code_lines as [|ln code_lines'] eqn:E; [done|]. rewrite <- E in *.
  assert (code_lines <> []) as Hne by (by rewrite E).
  rewrite !remove_ws_app. do 2 f_equal.
  destruct (multiline_block_groups code_lines Hne Ht max_chars)
    as (groups & Hc & Hb & _).
  rewrite Hb. unfold code_block.
  change (str_eqb (lit "none") (lit "single_line")) with false.
  change (str_eqb (lit "none") (lit "multiline")) with false.
  cbv iota. rewrite !remove_ws_join by done.
  rewrite List.map_map.
  rewrite (List.map_ext _ (fun g => concat (List.map remove_ws g)))
    by (intros g; by apply remove_ws_join).
  rewrite concat_map_concat, Hc, List.map_map. f_equal.
  apply List.map_ext. intros l. apply remove_ws_minify.
Qed.

Lemma rendered_is_join (minify_style : str) (max_chars : Z)
    (flattened_content : str) :
  rendered minify_style max_chars flattened_content
  = join [LF]
      (fst (classified flattened_content)
       ++ match snd (classified flattened_content) with
          | [] => []
          | _ :: _ =>
              [code_block minify_style max_chars
                 (snd (classified flattened_content))]
          end).
Proof.
  pose proof (directives_tight flattened_content) as Hd.
  pose proof (code_lines_tight flattened_content) as Hc.
  unfold rendered, final_content.
  destruct (classified flattened_content) as [directives code_lines].
  cbn [fst snd] in *.
  destruct code_lines as [|ln code_lines'] eqn:Hcode.
  - rewrite app_nil_r. destruct directives as [|d ds] eqn:Hdir; [done|].
    apply tight_strip. by apply tight_join.
  - rewrite <- Hcode in *.
    assert (code_lines <> []) as Hne by (by rewrite Hcode).
    pose proof (code_block_tight code_lines Hne Hc minify_style max_chars)
      as Hb.
    destruct directives as [|d ds] eqn:Hdir.
    + by apply strip_leading_lf.
    + rewrite <- Hdir in *. rewrite <- join_snoc by (by rewrite Hdir).
      apply tight_strip. apply tight_join; [by rewrite Hdir|].
      apply Forall_app. split; [done|]. by apply Forall_singleton.
Qed.

Lemma classified_no_lf (flattened_content : str) :
  forallb no_lf (fst (classified flattened_content)) = true /\
  forallb no_lf (snd (classified flattened_content)) = true.
Proof.
  rewrite classified_filter. simpl.
  pose proof (nonblank_lines_no_lf (strip_comments flattened_content)) as Hn.
  rewrite forallb_forall in Hn.
  split; apply forallb_forall; intros x Hx;
    apply List.filter_In in Hx as [Hx _]; by apply Hn.
Qed.

Lemma code_block_lines (minify_style : str) (max_chars : Z)
    (code_lines : list str) :
  code_lines <> [] -> Forall tight code_lines ->
  forallb no_lf code_lines = true ->
  exists block_lines : list str,
    block_lines <> [] /\
    code_block minify_style max_chars code_lines = join [LF] block_lines /\
    Forall tight block_lines /\ forallb no_lf block_lines = true.
Proof.
  intros Hne Ht Hn. unfold code_block.
  destruct (str_eqb minify_style (lit "single_line")).
  - exists [join [SP] (List.map minify_cpp_line code_lines)].
    split; [done|]. split; [done|]. split.
    + apply Forall_singleton.
      apply tight_join; [by destruct code_lines|by apply fragments_tight].
    + simpl. rewrite andb_true_r. apply no_lf_join; [done|].
      apply forallb_forall. intros x Hx.
      apply List.in_map_iff in Hx as (l & <- & _). apply minify_no_lf.
  - destruct (str_eqb minify_style (lit "multiline")).
    + destruct (multiline_block_groups code_lines Hne Ht max_chars)
        as (groups & _ & Hb & Hg & _ & Htl & Hnl).
      exists (List.map (join [SP]) groups).
      split; [by destruct groups|]. split; [|done].
      unfold code_block in Hb.
      change (str_eqb (lit "multiline") (lit "single_line")) with false in Hb.
      change (str_eqb (lit "multiline") (lit "multiline")) with true in Hb.
      exact Hb.
    + by exists code_lines.
Qed.

(** X9. Whatever the style, a rendered block that is not empty has no
    blank line and no line that starts or ends with whitespace. *)
Theorem rendered_lines_trimmed (minify_style : str) (max_chars : Z)
    (flattened_content : str) :
  rendered minify_style max_chars flattened_content <> [] ->
  Forall tight
    (split_on LF (rendered minify_style max_chars flattened_content)).
Proof.
  rewrite rendered_is_join.
  pose proof (directives_tight flattened_content) as Hd.
  pose proof (code_lines_tight flattened_content) as Hc.
  destruct (classified_no_lf flattened_content) as [Hdn Hcn].
  destruct (classified flattened_content) as [directives code_lines].
  simpl in *. intros Hne.
  destruct code_lines as [|ln code_lines'] eqn:Hcode.
  - rewrite app_nil_r in *.
    rewrite split_on_join; [done| |done]. by destruct directives.
  - rewrite <- Hcode in *.
    assert (code_lines <> []) as Hcne by (by rewrite Hcode).
    destruct (code_block_lines minify_style max_chars code_lines Hcne Hc Hcn)
      as (block_lines & Hbne & Hb & Hbt & Hbn).
    rewrite Hb, join_flatten by done.
    rewrite split_on_join.
    + apply Forall_app. by split.
    + by destruct directives, block_lines.
    + by rewrite forallb_app, Hdn, Hbn.
Qed.

(** ** The lines of the flattened text *)

Lemma split_on_nonempty (sep : N) (s : str) : split_on sep s <> [].
Proof.
  destruct s as [|c s]; [done|]. simpl.
  destruct (c =? sep)%N; [done|]. by destruct (split_on sep s).
Qed.

Lemma split_on_app_sep (sep : N) (a b : str) :
  split_on sep (a ++ sep :: b) = split_on sep a ++ split_on sep b.
Proof.
  induction a as [|c a IH]; simpl.
  - by rewrite N.eqb_refl.
  - destruct (c =? sep)%N; [by rewrite IH|]. rewrite IH.
    pose proof (split_on_nonempty sep a).
    by destruct (split_on sep a).
Qed.

Lemma split_on_join_concat (parts : list str) :
  parts <> [] ->
  split_on LF (join [LF] parts) = concat (List.map (split_on LF) parts).
Proof.
  induction parts as [|x rest IH]; [done|]. intros _.
  destruct rest as [|y rest].
  - simpl. by rewrite app_nil_r.
  - change (join [LF] (x :: y :: rest))
      with (x ++ LF :: join [LF] (y :: rest)).
    rewrite split_on_app_sep, IH by done. done.
Qed.

Lemma clean_join (parts : list str) :
  Forall clean parts -> clean (join [LF] parts).
Proof.
  intros Hall. unfold clean.
  destruct parts as [|x rest]; [done|].
  rewrite split_on_join_concat by done.
  apply forallb_forall. intros l Hl.
  apply List.in_concat in Hl as (ls & Hls & Hl).
  apply List.in_map_iff in Hls as (part & <- & Hpart).
  rewrite Forall_forall in Hall.
  specialize (Hall part (proj2 (list_elem_of_In _ _) Hpart)).
  unfold clean in Hall. rewrite forallb_forall in Hall. by apply Hall.
Qed.

Section CleanText.
Context {W : World}.

Lemma inline_lines_clean (rec : str -> state -> outcome str)
    (header_dir : str) (lines processed_lines : list str) (st : state)
    (result : list str) (st' : state) :
  (forall path st text st', rec path st = Return text st' -> clean text) ->
  forallb no_lf lines = true ->
  Forall clean processed_lines ->
  inline_lines rec header_dir lines processed_lines st = Return result st' ->
  Forall clean result.
Proof.
  intros Hrec. revert processed_lines st.
  induction lines as [|line rest IH]; intros processed_lines st Hn Hp; simpl.
  - by intros [= <- _].
  - simpl in Hn. apply andb_prop in Hn as [Hl Hrest].
    destruct (match_local_include line) as [name|] eqn:Hm.
    + destruct (rec _ _) as [text st1|e st1|] eqn:Hr; [|done|done].
      apply IH; [done|]. apply Forall_app. split; [done|].
      apply Forall_singleton. by eapply Hrec.
    + destruct (str_eqb (strip line) pragma_once) eqn:Hpr; [by apply IH|].
      apply IH; [done|]. apply Forall_app. split; [done|].
      apply Forall_singleton. unfold clean.
      rewrite split_on_no_sep by done. simpl.
      unfold clean_line, is_pragma_once, is_local_include.
      by rewrite Hpr, Hm.
Qed.

Lemma recursively_inline_fuel_clean (fuel : nat) (header_path : str)
    (st : state) (text : str) (st' : state) :
  recursively_inline_fuel fuel header_path st = Return text st' ->
  clean text.
Proof.
  revert header_path st text st'.
  induction fuel as [|fuel IH]; intros header_path st text st'; [done|].
  rewrite recursively_inline_fuel_eq. cbv zeta.
  destruct (decide _); [by intros [= <- _]|].
  destruct (files !! abspath header_path) as [[content|e]|];
    [|done|by intros [= <- _]].
  destruct (inline_lines _ _ _ _ _) as [result st1|e st1|] eqn:Hl;
    [|done|done].
  intros [= <- _]. apply clean_join.
  eapply inline_lines_clean; [apply IH|apply splitlines_no_lf| |exact Hl].
  constructor.
Qed.

(** X10. In the text that a traversal returns, no line is a
    compile-once pragma and no line is a local include: every local
    include met in a header, at any depth, has been replaced. *)
Theorem flattened_text_is_clean (header_path : str) (st : state)
    (text : str) (st' : state) :
  recursively_inline header_path st = Return text st' ->
  forallb (fun line =>
             negb (str_eqb (strip line) (lit "#pragma once"))
             && negb (is_local_include line))
    (split_on LF text) = true.
Proof.
  intros Hrun. by apply recursively_inline_fuel_clean in Hrun.
Qed.

End CleanText.

(** ** The search for the configuration file *)

(** X11. [find_config_path] only returns a path that exists, and with
    an explicit non-empty argument it returns that argument or
    nothing: a missing explicit file is reported and is never replaced
    by the local or the global configuration file. *)
Theorem find_config_path_sound {W : World} (path_exists : str -> bool)
    (expanduser : str -> str) (config_arg : option str) :
  (forall p,
     fst (find_config_path path_exists expanduser config_arg) = Some p ->
     path_exists p = true) /\
  (forall arg,
     config_arg = Some arg -> arg <> [] ->
     find_config_path path_exists expanduser config_arg
     = if path_exists arg then (Some arg, [])
       else (None, [msg_config_missing arg])).
Proof.
  split.
  - intros p. unfold find_config_path.
    destruct config_arg as [[|c arg]|]; cbv zeta;
      repeat (match goal with
              | |- context [if path_exists ?x then _ else _] =>
                  destruct (path_exists x) eqn:?
              end); simpl; intros [= <-]; done.
  - intros arg -> Hne. by destruct arg.
Qed.

(** ** The further properties on the example trees *)

Lemma unmarked_text_written_verbatim_witness :
  process_lines (W:=Demo.world) (lit "/w") (Demo.cfg "none")
    (file_lines Demo.leaf_h) [] []
  = Completed ([] ++ Demo.leaf_h) [].
Proof.
  apply (unmarked_text_written_verbatim (W:=Demo.world) (lit "/w")
           (Demo.cfg "none") Demo.leaf_h [] []).
  vm_compute. reflexivity.
Defined.

Lemma marked_include_block_witness :
  process_line (W:=Demo.world) (lit "/w") (Demo.cfg "none")
    MarkedRun.line [] []
  = Completed
      ([] ++ start_marker (lit "a.h")
       ++ rendered (lit "none") 20 MarkedRun.text ++ [LF]
       ++ end_marker (lit "a.h"))
      (trace MarkedRun.final).
Proof.
  apply (marked_include_block (W:=Demo.world) (lit "/w") (Demo.cfg "none")
           MarkedRun.line (lit "a.h") (lit " ") [] [] MarkedRun.text
           MarkedRun.final).
  - vm_compute. reflexivity.
  - discriminate.
  - vm_compute. reflexivity.
  - vm_compute. reflexivity.
Defined.

Lemma unreadable_header_aborts_witness :
  process_lines (W:=Broken.world) (lit "/w") (Demo.cfg "none")
    [Demo.inc "dir.h" ++ lit " //@" ++ [LF]; lit "int last;" ++ [LF]]
    (lit "int first;" ++ [LF]) []
  = Exited (lit "int first;" ++ [LF])
      ([] ++ [ Print (msg_inlining (lit "dir.h") (lit "none"));
               Print (msg_unexpected
                        (lit "[Errno 21] Is a directory: '/w/dir.h'")) ]).
Proof.
  apply (unreadable_header_aborts (W:=Broken.world) (lit "/w")
           (Demo.cfg "none") (Demo.inc "dir.h" ++ lit " //@" ++ [LF])
           (lit "dir.h") (lit "[Errno 21] Is a directory: '/w/dir.h'")).
  - vm_compute. reflexivity.
  - vm_compute. reflexivity.
  - vm_compute. reflexivity.
Defined.

Lemma multiline_is_single_line_when_it_fits_witness :
  rendered (lit "multiline") 120 DemoRuns.a_text
  = rendered (lit "single_line") 120 DemoRuns.a_text.
Proof.
  apply (multiline_is_single_line_when_it_fits 120 DemoRuns.a_text).
  apply Z.leb_le. vm_compute. reflexivity.
Defined.

Lemma rendered_lines_trimmed_witness :
  Forall tight (split_on LF (rendered (lit "multiline") 20 DemoRuns.a_text)).
Proof.
  apply (rendered_lines_trimmed (lit "multiline") 20 DemoRuns.a_text).
  vm_compute. discriminate.
Defined.

Lemma flattened_text_is_clean_witness :
  forallb (fun line =>
             negb (str_eqb (strip line) (lit "#pragma once"))
             && negb (is_local_include line))
    (split_on LF DemoRuns.a_text) = true.
Proof.
  apply (flattened_text_is_clean (W:=Demo.world) (lit "a.h") Demo.st0
           DemoRuns.a_text DemoRuns.a_state).
  vm_compute. reflexivity.
Defined.

(** The whole loop on the tree with the unreadable header. *)
Example broken_run :
  process_lines (W:=Broken.world) (lit "/w") (Demo.cfg "none")
    (file_lines Broken.main_cpp) [] []
  = Exited (lit "int first;" ++ [LF])
      [ Print (msg_inlining (lit "dir.h") (lit "none"));
        Print (msg_unexpected (lit "[Errno 21] Is a directory: '/w/dir.h'")) ].
Proof. vm_compute. reflexivity. Qed.

(** * The flattened text, line by line *)

Lemma own_lines_app (q : str) (a b : list leaf) :
  own_lines q (a ++ b) = own_lines q a ++ own_lines q b.
Proof.
  induction a as [|[origin line|] a IH]; simpl; [done| |done].
  destruct (decide (origin = q)); simpl; by rewrite IH.
Qed.

Lemma join_groups (groups : list (list leaf)) :
  Forall (fun g => g <> []) groups ->
  join [LF] (List.map (fun g => join [LF] (List.map leaf_text g)) groups)
  = join [LF] (List.map leaf_text (concat groups)).
Proof.
  induction groups as [|g rest IH]; [done|].
  intros [Hg Hrest]%Forall_cons.
  destruct rest as [|g2 rest].
  - simpl. by rewrite app_nil_r.
  - change (join [LF]
              (List.map (fun g => join [LF] (List.map leaf_text g))
                 (g :: g2 :: rest)))
      with (join [LF] (List.map leaf_text g) ++ [LF]
            ++ join [LF]
                 (List.map (fun g => join [LF] (List.map leaf_text g))
                    (g2 :: rest))).
    rewrite IH by done.
    change (concat (g :: g2 :: rest)) with (g ++ concat (g2 :: rest)).
    rewrite List.map_app, join_app; [done|by destruct g|].
    apply Forall_cons in Hrest as [Hg2 _]. simpl. by destruct g2.
Qed.

Lemma kept_of_include (line : str) (rest : list str) :
  is_local_include line = true -> kept_of (line :: rest) = kept_of rest.
Proof. intros H. unfold kept_of. simpl. by rewrite H. Qed.

Lemma kept_of_pragma (line : str) (rest : list str) :
  is_pragma_once line = true -> kept_of (line :: rest) = kept_of rest.
Proof. intros H. unfold kept_of. simpl. by rewrite H, andb_false_r. Qed.

Lemma kept_of_kept (line : str) (rest : list str) :
  is_local_include line = false -> is_pragma_once line = false ->
  kept_of (line :: rest) = line :: kept_of rest.
Proof. intros H1 H2. unfold kept_of. simpl. by rewrite H1, H2. Qed.

Section FlattenedText.
Context {W : World}.

Lemma extends_events (st st' : state) (ev : list event) :
  extends st st' -> trace st' = trace st ++ ev ->
  seen_files st ⊆ seen_files st' /\
  NoDup (opens ev) /\
  forall q, q ∈ opens ev <->
    (q ∈ seen_files st' /\ (q ∉ seen_files st) /\
     exists content, files !! q = Some (Text content)).
Proof.
  intros (Hs & ev0 & Ht & Hn & Hiff) Hev.
  rewrite Ht in Hev. apply app_inv_head in Hev. by subst ev0.
Qed.

Section LeavesLoop.
Variable n : nat.
Hypothesis calls_flat :
  forall path st text st',
    (unseen st < n)%nat ->
    recursively_inline path st = Return text st' -> flat st st' text.

Lemma inline_lines_leaves (origin header_dir : str)
    (lines processed_lines : list str) (st : state)
    (result : list str) (st' : state) :
  (unseen st < n)%nat -> origin ∈ seen_files st ->
  inline_lines recursively_inline header_dir lines processed_lines st
  = Return result st' ->
  exists ev groups,
    trace st' = trace st ++ ev /\
    result
    = processed_lines
      ++ List.map (fun g => join [LF] (List.map leaf_text g)) groups /\
    Forall (fun g => g <> []) groups /\
    forall q,
      own_lines q (concat groups)
      = if decide (q = origin) then kept_of lines
        else if decide (q ∈ opens ev) then kept_lines q else [].
Proof.
  revert processed_lines st.
  induction lines as [|line rest IH]; intros processed_lines st Hn Ho Hrun.
  - simpl in Hrun. injection Hrun as <- <-. exists [], [].
    rewrite !app_nil_r. repeat split; [constructor|].
    intros q. simpl. destruct (decide (q = origin)); [done|].
    by destruct (decide (q ∈ [])) as [?%elem_of_nil|].
  - simpl in Hrun.
    destruct (match_local_include line) as [name|] eqn:Hm.
    + set (st1 := print (msg_nested name) st) in *.
      pose proof (recursively_inline_post (path_join header_dir name) st1)
        as Hpost.
      destruct (recursively_inline (path_join header_dir name) st1)
        as [nested st3|e st3|] eqn:Hrec; [|done|done].
      simpl in Hpost.
      assert (unseen st1 < n)%nat as Hn1 by exact Hn.
      destruct (calls_flat _ _ _ _ Hn1 Hrec)
        as (ev_n & leaves_n & Htr_n & Htext & Hown_n).
      destruct (extends_events _ _ _ Hpost Htr_n) as (Hs_n & _ & Hiff_n).
      pose proof (extends_unseen _ _ Hpost) as Hle.
      assert (unseen st3 < n)%nat as Hn3
        by (eapply Nat.le_lt_trans; [exact Hle|exact Hn1]).
      assert (origin ∈ seen_files st3) as Ho3 by set_solver.
      pose proof (inline_lines_recursively_inline_post header_dir rest
                    (processed_lines ++ [nested]) st3) as Hpost_r.
      rewrite Hrun in Hpost_r. simpl in Hpost_r.
      destruct (IH _ _ Hn3 Ho3 Hrun)
        as (ev_r & groups_r & Htr_r & Hres & Hne & Hown_r).
      destruct (extends_events _ _ _ Hpost_r Htr_r) as (_ & _ & Hiff_r).
      exists ([Print (msg_nested name)] ++ ev_n ++ ev_r),
        (match leaves_n with [] => [Gap] | _ :: _ => leaves_n end :: groups_r).
      split; [|split; [|split]].
      * rewrite Htr_r, Htr_n. simpl. by rewrite <- !app_assoc.
      * rewrite Hres, <- app_assoc. do 2 f_equal. simpl. f_equal.
        rewrite Htext. by destruct leaves_n.
      * constructor; [by destruct leaves_n|done].
      * intros q.
        change (concat (match leaves_n with [] => [Gap] | _ :: _ => leaves_n end
                        :: groups_r))
          with (match leaves_n with [] => [Gap] | _ :: _ => leaves_n end
                ++ concat groups_r).
        rewrite own_lines_app, Hown_r.
        assert (own_lines q
                  match leaves_n with [] => [Gap] | _ :: _ => leaves_n end
                = own_lines q leaves_n) as -> by (by destruct leaves_n).
        rewrite Hown_n.
        rewrite kept_of_include by (unfold is_local_include; by rewrite Hm).
        change (opens ([Print (msg_nested name)] ++ ev_n ++ ev_r))
          with (opens (ev_n ++ ev_r)).
        rewrite opens_app.
        destruct (decide (q = origin)) as [->|Hq].
        -- destruct (decide (origin ∈ opens ev_n)) as [Hin|_]; [|done].
           apply Hiff_n in Hin as (_ & Hnot & _). done.
        -- destruct (decide (q ∈ opens ev_n)) as [H1|H1];
             destruct (decide (q ∈ opens ev_r)) as [H2|H2];
             destruct (decide (q ∈ opens ev_n ++ opens ev_r)) as [H3|H3];
             try done.
           ++ apply Hiff_n in H1 as (H1 & _). apply Hiff_r in H2 as (_ & H2 & _).
              done.
           ++ exfalso. apply H3, elem_of_app. by left.
           ++ by rewrite app_nil_r.
           ++ exfalso. apply H3, elem_of_app. by left.
           ++ exfalso. apply H3, elem_of_app. by right.
           ++ apply elem_of_app in H3 as [?|?]; done.
    + destruct (str_eqb (strip line) pragma_once) eqn:Hp.
      * destruct (IH _ _ Hn Ho Hrun)
          as (ev_r & groups_r & Htr_r & Hres & Hne & Hown_r).
        exists ev_r, groups_r. repeat split; try done.
        intros q. rewrite Hown_r. by rewrite kept_of_pragma.
      * destruct (IH _ _ Hn Ho Hrun)
          as (ev_r & groups_r & Htr_r & Hres & Hne & Hown_r).
        exists ev_r, ([Own origin line] :: groups_r).
        split; [done|]. split; [by rewrite Hres, <- app_assoc|].
        split; [by constructor|].
        intros q.
        change (concat ([Own origin line] :: groups_r))
          with ([Own origin line] ++ concat groups_r).
        rewrite own_lines_app, Hown_r. cbn [own_lines app].
        rewrite kept_of_kept;
          [|unfold is_local_include; by rewrite Hm|done].
        destruct (decide (origin = q)) as [->|Hq].
        -- by destruct (decide (q = q)).
        -- by destruct (decide (q = origin)) as [->|_].
Qed.

End LeavesLoop.

Lemma recursively_inline_flat_bounded (n : nat) (header_path : str)
    (st : state) (text : str) (st' : state) :
  (unseen st < n)%nat ->
  recursively_inline header_path st = Return text st' -> flat st st' text.
Proof.
  revert header_path st text st'.
  induction n as [|n IH]; intros header_path st text st' Hn Hrun; [lia|].
  rewrite recursively_inline_unfold in Hrun. cbv zeta in Hrun.
  destruct (decide _) as [Hin|Hin].
  - injection Hrun as <- <-. exists [], []. rewrite app_nil_r.
    split; [done|]. split; [done|]. intros q. simpl.
    by destruct (decide (q ∈ [])) as [?%elem_of_nil|].
  - destruct (files !! abspath header_path) as [[content|e]|] eqn:Hf;
      [|done|].
    + pose proof (unseen_add_seen _ _ _ Hin Hf) as Hlt.
      destruct (inline_lines _ _ _ _ _) as [result st2|e st2|] eqn:Hl;
        [|done|done].
      injection Hrun as <- <-.
      assert (unseen (opened (abspath header_path)
                        (add_seen (abspath header_path) st)) < n)%nat
        as Hn2 by lia.
      assert (abspath header_path
              ∈ seen_files (opened (abspath header_path)
                              (add_seen (abspath header_path) st)))
        as Ho by (simpl; set_solver).
      destruct (inline_lines_leaves n IH _ _ _ _ _ _ _ Hn2 Ho Hl)
        as (ev & groups & Htr & Hres & Hne & Hown).
      exists (Open (abspath header_path) :: ev), (concat groups).
      split; [|split].
      * rewrite Htr. simpl. by rewrite <- app_assoc.
      * rewrite Hres. simpl. by apply join_groups.
      * intros q. rewrite Hown. simpl.
        destruct (decide (q = abspath header_path)) as [->|Hq].
        -- destruct (decide (_ ∈ _ :: _)) as [_|Hno].
           ++ unfold kept_lines. by rewrite Hf.
           ++ exfalso. apply Hno. by left.
        -- destruct (decide (q ∈ opens ev)) as [H1|H1];
             destruct (decide (q ∈ abspath header_path :: opens ev))
               as [H2|H2]; try done.
           ++ exfalso. apply H2. by right.
           ++ apply elem_of_cons in H2 as [?|?]; done.
    + injection Hrun as <- <-.
      exists [Print (msg_not_found header_path)], [].
      split; [done|]. split; [done|]. intros q. simpl.
      by destruct (decide (q ∈ [])) as [?%elem_of_nil|].
Qed.

(** A returned text is the newline-joined list of lines of which those
    that come from a header are the kept lines of that header, once
    and in order, if the header was opened, and none otherwise. *)
Lemma recursively_inline_flat (header_path : str) (st : state)
    (text : str) (st' : state) :
  recursively_inline header_path st = Return text st' -> flat st st' text.
Proof. apply (recursively_inline_flat_bounded (S (unseen st))). lia. Qed.

End FlattenedText.

(** * The flattened text as an include tree *)

Lemma visited_app (l1 l2 : list (str * bool)) :
  visited (l1 ++ l2) = visited l1 ∪ visited l2.
Proof. unfold visited. by rewrite List.map_app, list_to_set_app_L. Qed.

Lemma passed_app (a b : list str) : passed (a ++ b) = passed a ++ passed b.
Proof. apply List.filter_app. Qed.

Lemma passed_include (line : str) (rest : list str) :
  is_local_include line = true -> passed (line :: rest) = line :: passed rest.
Proof. intros H. unfold passed. simpl. by rewrite H. Qed.

Lemma passed_pragma (line : str) (rest : list str) :
  is_local_include line = false -> is_pragma_once line = true ->
  passed (line :: rest) = passed rest.
Proof. intros H1 H2. unfold passed. simpl. by rewrite H1, H2. Qed.

Lemma passed_kept (line : str) (rest : list str) :
  is_pragma_once line = false -> passed (line :: rest) = line :: passed rest.
Proof. intros H. unfold passed. simpl. by rewrite H, orb_true_r. Qed.

Section IncludeTrees.
Context {W : World}.

Lemma first_wins_app (seen : gset str) (l1 l2 : list (str * bool)) :
  first_wins seen (l1 ++ l2)
  = first_wins seen l1 && first_wins (seen ∪ visited l1) l2.
Proof.
  revert seen. induction l1 as [|[q here] l1 IH]; intros seen.
  - simpl. unfold visited. simpl. by rewrite (right_id_L ∅ (∪)).
  - cbn [app first_wins]. rewrite IH, andb_assoc. do 2 f_equal.
    unfold visited. simpl. set_solver.
Qed.

Lemma first_wins_inlined (seen : gset str) (vs : list (str * bool)) :
  first_wins seen vs = true ->
  NoDup (inlined vs) /\
  forall q, q ∈ inlined vs -> (q ∉ seen) /\ readable q = true.
Proof.
  revert seen. induction vs as [|[q here] vs IH]; intros seen Hw.
  - split; [constructor|]. intros q Hq. by apply elem_of_nil in Hq.
  - cbn [first_wins] in Hw. apply andb_true_iff in Hw as [Hq%eqb_prop Hrest].
    destruct (IH _ Hrest) as [Hnd Hin]. unfold inlined in *.
    destruct here; cbn [List.filter List.map snd fst] in *.
    + symmetry in Hq. apply andb_true_iff in Hq as [Hq Hr].
      apply bool_decide_eq_true in Hq. split.
      * constructor; [|done]. intros Hq'. apply Hin in Hq' as [Hq' _].
        set_solver.
      * intros q' [->|Hq']%elem_of_cons; [done|].
        apply Hin in Hq' as [Hq' ?]. split; [set_solver|done].
    + split; [done|]. intros q' Hq'. apply Hin in Hq' as [Hq' ?].
      split; [set_solver|done].
Qed.

Lemma aligned_app_inv (q : str) (l1 l2 : list str) (body : list tree) :
  aligned q (l1 ++ l2) body = true ->
  exists b1 b2,
    body = b1 ++ b2 /\ aligned q l1 b1 = true /\ aligned q l2 b2 = true.
Proof.
  revert body. induction l1 as [|line l1 IH]; intros body H.
  - by exists [], body.
  - destruct body as [|t body]; [done|]. simpl in H.
    apply andb_true_iff in H as [Ht H].
    destruct (IH _ H) as (b1 & b2 & -> & H1 & H2).
    exists (t :: b1), b2. repeat split; [|done]. simpl. by rewrite Ht, H1.
Qed.

Section TreeLoop.
Variable n : nat.
Hypothesis calls_tree :
  forall path st text st',
    (unseen st < n)%nat ->
    recursively_inline path st = Return text st' ->
    inlined_as path st st' text.

Lemma inline_lines_tree_bounded (q : str) (lines processed_lines : list str)
    (st : state) (result : list str) (st' : state) :
  (unseen st < n)%nat ->
  inline_lines recursively_inline (dirname q) lines processed_lines st
  = Return result st' ->
  exists body,
    result = processed_lines ++ List.map tree_text body /\
    aligned q (passed lines) body = true /\
    forallb follows body = true /\
    first_wins (seen_files st) (concat (List.map visits body)) = true /\
    seen_files st' = seen_files st ∪ visited (concat (List.map visits body)).
Proof.
  revert processed_lines st.
  induction lines as [|line rest IH]; intros processed_lines st Hn Hrun.
  - simpl in Hrun. injection Hrun as <- <-. exists [].
    rewrite app_nil_r. repeat split. unfold visited. simpl. set_solver.
  - simpl in Hrun.
    destruct (match_local_include line) as [name|] eqn:Hm.
    + set (st1 := print (msg_nested name) st) in *.
      pose proof (recursively_inline_post (path_join (dirname q) name) st1)
        as Hpost.
      destruct (recursively_inline (path_join (dirname q) name) st1)
        as [nested st3|e st3|] eqn:Hrec; [|done|done].
      simpl in Hpost.
      assert (unseen st1 < n)%nat as Hn1 by exact Hn.
      destruct (calls_tree _ _ _ _ Hn1 Hrec)
        as (t & Htext & Htarget & Hfollows & Hwins & Hseen).
      pose proof (extends_unseen _ _ Hpost) as Hle.
      assert (unseen st3 < n)%nat as Hn3
        by (eapply Nat.le_lt_trans; [exact Hle|exact Hn1]).
      destruct (IH _ _ Hn3 Hrun)
        as (body & Hres & Hal & Hfo & Hw & Hs).
      exists (t :: body). split; [|split; [|split; [|split]]].
      * rewrite Hres, <- app_assoc, Htext. done.
      * rewrite passed_include by (unfold is_local_include; by rewrite Hm).
        cbn [aligned]. rewrite Hal.
        unfold stands_for. rewrite Hm, Htarget. by rewrite bool_decide_eq_true_2.
      * cbn [forallb]. by rewrite Hfollows, Hfo.
      * cbn [List.map concat]. rewrite first_wins_app.
        change (seen_files st1) with (seen_files st) in Hwins, Hseen.
        rewrite Hwins. by rewrite <- Hseen.
      * cbn [List.map concat]. rewrite visited_app, Hs, Hseen.
        change (seen_files st1) with (seen_files st). set_solver.
    + destruct (str_eqb (strip line) pragma_once) eqn:Hp.
      * destruct (IH _ _ Hn Hrun) as (body & Hres & Hal & Hfo & Hw & Hs).
        exists body. repeat split; try done.
        rewrite passed_pragma; [done| |done].
        unfold is_local_include. by rewrite Hm.
      * destruct (IH _ _ Hn Hrun) as (body & Hres & Hal & Hfo & Hw & Hs).
        exists (Kept line :: body). split; [|split; [|split; [|split]]].
        -- by rewrite Hres, <- app_assoc.
        -- rewrite passed_kept by done. cbn [aligned]. rewrite Hal.
           unfold stands_for. rewrite Hm. by rewrite bool_decide_eq_true_2.
        -- done.
        -- done.
        -- done.
Qed.

End TreeLoop.

Lemma recursively_inline_tree_bounded (n : nat) (header_path : str)
    (st : state) (text : str) (st' : state) :
  (unseen st < n)%nat ->
  recursively_inline header_path st = Return text st' ->
  inlined_as header_path st st' text.
Proof.
  revert header_path st text st'.
  induction n as [|n IH]; intros header_path st text st' Hn Hrun; [lia|].
  rewrite recursively_inline_unfold in Hrun. cbv zeta in Hrun.
  destruct (decide _) as [Hin|Hin].
  - injection Hrun as <- <-. exists (Empty (abspath header_path)).
    split; [done|]. split; [done|]. split; [done|]. split.
    + cbn [visits first_wins]. by rewrite bool_decide_eq_false_2 by set_solver.
    + unfold visited. simpl. set_solver.
  - destruct (files !! abspath header_path) as [[content|e]|] eqn:Hf;
      [|done|].
    + pose proof (unseen_add_seen _ _ _ Hin Hf) as Hlt.
      destruct (inline_lines _ _ _ _ _) as [result st2|e st2|] eqn:Hl;
        [|done|done].
      injection Hrun as <- <-.
      assert (unseen (opened (abspath header_path)
                        (add_seen (abspath header_path) st)) < n)%nat
        as Hn2 by lia.
      destruct (inline_lines_tree_bounded n IH _ _ _ _ _ _ Hn2 Hl)
        as (body & Hres & Hal & Hfo & Hw & Hs).
      exists (Header (abspath header_path) body).
      split; [by rewrite Hres|]. split; [done|]. split; [|split].
      * cbn [follows]. by rewrite Hf, Hal, Hfo.
      * cbn [visits first_wins]. unfold readable. rewrite Hf.
        rewrite bool_decide_eq_true_2 by done. exact Hw.
      * rewrite Hs. unfold visited. simpl. set_solver.
    + injection Hrun as <- <-. exists (Empty (abspath header_path)).
      split; [done|]. split; [done|]. split; [done|]. split.
      * cbn [visits first_wins]. unfold readable. rewrite Hf.
        by rewrite andb_false_r.
      * unfold visited. simpl. set_solver.
Qed.

(** Every returned text is the text of an include tree. *)
Lemma recursively_inline_tree (header_path : str) (st : state)
    (text : str) (st' : state) :
  recursively_inline header_path st = Return text st' ->
  inlined_as header_path st st' text.
Proof. apply (recursively_inline_tree_bounded (S (unseen st))). lia. Qed.

End IncludeTrees.

(** * The claims on the flattened text *)

Section FlattenedClaims.
Context {W : World}.

(** C1, amended. When a traversal returns, the text is the text of an
    include tree for the header asked for.  The tree follows the files: the
    body of every header inlined has, in the order of the lines of the
    file, each line that is neither a local include nor a compile-once
    pragma as it is, and for each local include the tree of the path it
    names.  In the order of the traversal the first occurrence wins: a
    path is inlined at a visit exactly when it is a readable file that
    neither the visited set of the start nor an earlier visit holds,
    and every other visit gives the empty text.  So no path is inlined
    twice.  The visited set grows by the paths visited, and every later
    call for one of them returns the empty text, raises nothing and
    changes nothing.  A header is the same header here when its
    absolute path is the same string. *)
Theorem first_occurrence_wins (header_path : str) (st : state)
    (text : str) (st' : state) :
  recursively_inline header_path st = Return text st' ->
  (exists t,
     text = tree_text t /\
     target t = Some (abspath header_path) /\
     follows t = true /\
     first_wins (seen_files st) (visits t) = true /\
     NoDup (inlined (visits t)) /\
     seen_files st' = seen_files st ∪ visited (visits t)) /\
  (forall path st'',
     abspath path ∈ seen_files st' -> seen_files st' ⊆ seen_files st'' ->
     recursively_inline path st'' = Return [] st'').
Proof.
  intros Hrun. split.
  - destruct (recursively_inline_tree _ _ _ _ Hrun)
      as (t & Htext & Htarget & Hfollows & Hwins & Hseen).
    exists t. repeat split; try done.
    by destruct (first_wins_inlined _ _ Hwins).
  - intros path st'' Hp Hsub. apply recursively_inline_seen. set_solver.
Qed.

(** C2, amended. Recursive inlining terminates on every include graph,
    cyclic or not: any fuel above the number of existing paths that are not yet
    in the visited set gives the one result of [recursively_inline],
    which is a return or an exception.  The visited set only grows and
    holds the entered header at the end, and no path is opened twice.
    A returned text is a newline-joined list of lines in which the lines
    that come from a header are the kept lines of that header, once and
    in order, if the header was opened, and none otherwise.  A header
    is the same header here when its absolute path is the same
    string. *)
Theorem recursively_inline_terminates (header_path : str) (st : state) :
  (forall fuel, (size (dom files ∖ seen_files st) < fuel)%nat ->
     recursively_inline_fuel fuel header_path st
     = recursively_inline header_path st) /\
  exists st' ev,
    seen_files st ⊆ seen_files st' /\
    abspath header_path ∈ seen_files st' /\
    trace st' = trace st ++ ev /\
    NoDup (opens ev) /\
    ((exists e, recursively_inline header_path st = Raise e st') \/
     (exists leaves,
        recursively_inline header_path st
        = Return (join [LF] (List.map leaf_text leaves)) st' /\
        forall q,
          own_lines q leaves
          = if decide (q ∈ opens ev) then kept_lines q else [])).
Proof.
  split.
  - intros fuel Hfuel. by apply recursively_inline_fuel_enough.
  - destruct (recursively_inline_final header_path st)
      as (st' & Hfin & Hin & Hext).
    pose proof Hext as (Hs & ev & Htr & Hnd & _).
    exists st', ev. do 4 (split; [done|]).
    destruct (recursively_inline header_path st) as [text st1|e st1|] eqn:Hrun;
      [| |done]; simpl in Hfin; injection Hfin as ->.
    + right.
      destruct (recursively_inline_flat _ _ _ _ Hrun)
        as (ev' & leaves & Htr' & Htext & Hown).
      rewrite Htr in Htr'. apply app_inv_head in Htr'. subst ev'.
      exists leaves. by rewrite Htext.
    + left. by exists e.
Qed.

(** C10. In a header that is inlined, a line made of whitespace,
    [#include], a quoted non-empty name and any trailing text is
    replaced as a whole by the text of the include tree of that name,
    taken from the directory of the header: the returned text is the
    newline-joined list of the texts of the trees that stand for the
    lines before, of that tree, and of the trees that stand for the
    lines after.  Nothing of the line is left, and no line of the
    returned text is a local include. *)
Theorem local_include_line_replaced (header_path : str) (st : state)
    (content : str) (pre post : list str) (ws name trailing : str)
    (text : str) (st' : state) :
  abspath header_path ∉ seen_files st ->
  files !! abspath header_path = Some (Text content) ->
  splitlines content
  = pre ++ [ws ++ lit "#include " ++ [DQ] ++ name ++ [DQ] ++ trailing]
    ++ post ->
  forallb isspace ws = true ->
  name <> [] ->
  forallb (fun c => negb (c =? DQ)%N) name = true ->
  recursively_inline header_path st = Return text st' ->
  exists before t after,
    text = join [LF] (List.map tree_text (before ++ [t] ++ after)) /\
    aligned (abspath header_path) (passed pre) before = true /\
    target t
    = Some (abspath (path_join (dirname (abspath header_path)) name)) /\
    aligned (abspath header_path) (passed post) after = true /\
    forallb follows (before ++ [t] ++ after) = true /\
    first_wins ({[abspath header_path]} ∪ seen_files st)
      (concat (List.map visits (before ++ [t] ++ after))) = true /\
    Forall (fun line => is_local_include line = false) (split_on LF text).
Proof.
  intros Hnew Hf Hlines Hws Hne Hq Hrun.
  pose proof (match_local_include_intro ws name trailing Hws Hne Hq) as Hm.
  unfold include_prefix in Hm. rewrite <- !app_assoc in Hm.
  change ((DQ :: trailing)) with ([DQ] ++ trailing) in Hm.
  set (line := ws ++ lit "#include " ++ [DQ] ++ name ++ [DQ] ++ trailing) in *.
  change ([line] ++ post) with (line :: post) in Hlines.
  destruct (recursively_inline_tree _ _ _ _ Hrun)
    as (t & Htext & Htarget & Hfollows & Hwins & Hseen).
  destruct t as [kept|q|q body]; [done| |]; injection Htarget as ->.
  - exfalso. cbn [visits first_wins] in Hwins. unfold readable in Hwins.
    rewrite Hf, bool_decide_eq_true_2 in Hwins by done. done.
  - cbn [follows] in Hfollows. rewrite Hf, Hlines in Hfollows.
    apply andb_true_iff in Hfollows as [Hal Hfo].
    rewrite passed_app in Hal.
    apply aligned_app_inv in Hal as (before & rest & -> & Hpre & Hrest).
    rewrite passed_include in Hrest
      by (unfold is_local_include; by rewrite Hm).
    destruct rest as [|t after]; [done|]. cbn [aligned] in Hrest.
    apply andb_true_iff in Hrest as [Ht Hpost].
    unfold stands_for in Ht. rewrite Hm in Ht.
    apply bool_decide_eq_true in Ht.
    exists before, t, after. split; [done|]. do 4 (split; [done|]). split.
    + cbn [visits first_wins] in Hwins.
      by apply andb_true_iff in Hwins as [_ Hwins].
    + apply Forall_forall. intros out_line Hline.
      pose proof (recursively_inline_fuel_clean _ _ _ _ _ Hrun) as Hclean.
      unfold clean in Hclean.
      apply list_elem_of_In in Hline.
      apply (proj1 (forallb_forall _ _) Hclean) in Hline.
      unfold clean_line in Hline.
      apply andb_true_iff in Hline as [_ Hline].
      by apply negb_true_iff in Hline.
Qed.

End FlattenedClaims.

(** ** The claims on the example trees *)

Lemma first_occurrence_wins_witness :
  (exists t,
     DemoRuns.a_text = tree_text t /\
     target t = Some (abspath (World:=Demo.world) (lit "a.h")) /\
     follows (W:=Demo.world) t = true /\
     first_wins (W:=Demo.world) (seen_files Demo.st0) (visits t) = true /\
     NoDup (inlined (visits t)) /\
     seen_files DemoRuns.a_state = seen_files Demo.st0 ∪ visited (visits t)) /\
  (forall path st'',
     abspath (World:=Demo.world) path ∈ seen_files DemoRuns.a_state ->
     seen_files DemoRuns.a_state ⊆ seen_files st'' ->
     recursively_inline (W:=Demo.world) path st'' = Return [] st'').
Proof.
  apply (first_occurrence_wins (W:=Demo.world) (lit "a.h") Demo.st0
           DemoRuns.a_text DemoRuns.a_state).
  vm_compute. reflexivity.
Defined.

(** The traversal of [a.h] in the example tree: [d.h] is inlined below
    [b.h], where it is met first, and gives the empty text below [c.h];
    the include of [a.h] in [d.h] closes a cycle and gives the empty
    text. *)
Example demo_tree :
  DemoRuns.a_out = Return (tree_text DemoTree.a_tree) DemoRuns.a_state /\
  tree_text DemoTree.a_tree
  = join [LF] [ join [LF] [ join [LF] [ []; lit "int d = 1;  // one";
                                        lit "#define D 1" ];
                            lit "int b;" ];
                join [LF] [ []; lit "int c;" ];
                lit "int a;" ] /\
  follows (W:=Demo.world) DemoTree.a_tree = true /\
  first_wins (W:=Demo.world) ∅ (visits DemoTree.a_tree) = true /\
  inlined (visits DemoTree.a_tree)
  = [lit "/w/a.h"; lit "/w/b.h"; lit "/w/d.h"; lit "/w/c.h"].
Proof. repeat split; vm_compute; reflexivity. Qed.

(** C1, as the code has it: the visited set holds absolute paths as
    strings.  The file [b.h] is reached from [a.h] under the two
    absolute paths [/w/b.h] and [//w/b.h], which [os.path.abspath]
    leaves as they are: it is opened twice and its line is in the text
    twice. *)
Lemma same_file_inlined_twice :
  files (World:=Spellings.world) !! lit "//w/b.h"
  = files (World:=Spellings.world) !! lit "/w/b.h" /\
  exists st',
    recursively_inline (W:=Spellings.world) (lit "a.h") Demo.st0
    = Return (join [LF] [lit "int b;"; lit "int b;"; lit "int a;"]) st' /\
    opens (trace st') = [lit "/w/a.h"; lit "/w/b.h"; lit "//w/b.h"].
Proof.
  split; [vm_compute; reflexivity|].
  eexists. split; vm_compute; reflexivity.
Qed.

(** C2, as the code has it: the file [s.h] includes itself under the
    absolute path [//w/s.h], which is not the string [/w/s.h] of the
    visited set: the traversal ends, and the line of [s.h] is in the
    text twice. *)
Lemma self_include_inlined_twice :
  files (World:=Spellings.world) !! lit "//w/s.h"
  = files (World:=Spellings.world) !! lit "/w/s.h" /\
  exists st',
    recursively_inline (W:=Spellings.world) (lit "s.h") Demo.st0
    = Return (join [LF] [lit "int s;"; lit "int s;"; []]) st' /\
    opens (trace st') = [lit "/w/s.h"; lit "//w/s.h"].
Proof.
  split; [vm_compute; reflexivity|].
  eexists. split; vm_compute; reflexivity.
Qed.

Lemma local_include_line_replaced_witness :
  exists before t after,
    Trailing.t_text
    = join [LF] (List.map tree_text (before ++ [t] ++ after)) /\
    aligned (W:=Trailing.world) (abspath (World:=Trailing.world) (lit "t.h"))
      (passed [lit "int before;"; Demo.inc "leaf.h" ++ lit " // first"])
      before = true /\
    target t
    = Some (abspath (World:=Trailing.world)
              (path_join (World:=Trailing.world)
                 (dirname (World:=Trailing.world)
                    (abspath (World:=Trailing.world) (lit "t.h")))
                 (lit "c.h"))) /\
    aligned (W:=Trailing.world) (abspath (World:=Trailing.world) (lit "t.h"))
      (passed [Demo.inc "d.h"; lit "int after;"]) after = true /\
    forallb (follows (W:=Trailing.world)) (before ++ [t] ++ after) = true /\
    first_wins (W:=Trailing.world)
      ({[abspath (World:=Trailing.world) (lit "t.h")]} ∪ seen_files Demo.st0)
      (concat (List.map visits (before ++ [t] ++ after))) = true /\
    Forall (fun line => is_local_include line = false)
      (split_on LF Trailing.t_text).
Proof.
  apply (local_include_line_replaced (W:=Trailing.world) (lit "t.h")
           Demo.st0 Trailing.t_h
           [lit "int before;"; Demo.inc "leaf.h" ++ lit " // first"]
           [Demo.inc "d.h"; lit "int after;"]
           (lit "  ") (lit "c.h") (lit " int trailing = 1; //@")
           Trailing.t_text Trailing.t_state).
  - apply not_elem_of_empty.
  - vm_compute. reflexivity.
  - vm_compute. reflexivity.
  - vm_compute. reflexivity.
  - discriminate.
  - vm_compute. reflexivity.
  - vm_compute. reflexivity.
Defined.

(** C8, as the code has it: the header [a.h/x.h] does not exist,
    because [a.h] is a regular file; [open] raises [NotADirectoryError],
    which [recursively_inline] does not catch, and the run ends with
    exit status 1 before anything is written for the marked line. *)
Lemma missing_header_below_file_aborts :
  files (World:=NotDir.world) !! lit "/w/a.h" = Some (Text (lit "int a;")) /\
  process_lines (W:=NotDir.world) (lit "/w") (Demo.cfg "none")
    [NotDir.line; lit "int last;" ++ [LF]] [] []
  = Exited []
      [Print (msg_inlining (lit "a.h/x.h") (lit "none"));
       Print (msg_unexpected
                (lit "[Errno 20] Not a directory: '/w/a.h/x.h'"))].
Proof. split; vm_compute; reflexivity. Qed.

(** * Tokens *)

Lemma tokens_space (c : N) (s : str) :
  isspace c = true -> tokens (c :: s) = tokens s.
Proof. intros H. simpl. by rewrite H. Qed.

Lemma tokens_drop_while (s : str) : tokens (drop_while isspace s) = tokens s.
Proof.
  induction s as [|c s IH]; [done|]. cbn [drop_while].
  destruct (isspace c) eqn:Hc; [|done]. by rewrite tokens_space.
Qed.

Lemma tokens_blank (w : str) : forallb isspace w = true -> tokens w = [].
Proof.
  induction w as [|c w IH]; [done|]. intros [Hc Hw]%andb_true_iff.
  rewrite tokens_space by done. by apply IH.
Qed.

Lemma word_head_tokens (s : str) : word_head s = true -> tokens s <> [].
Proof.
  destruct s as [|c s]; [done|]. unfold word_head, is_word.
  intros [Hs Hp]%andb_true_iff.
  apply negb_true_iff in Hs. apply negb_true_iff in Hp.
  cbn [tokens]. rewrite Hs, Hp.
  destruct (word_head s); [by destruct (tokens s)|done].
Qed.

Lemma word_head_app (a b : str) :
  word_head b = false -> word_head (a ++ b) = word_head a.
Proof. intros Hb. by destruct a. Qed.

(** Tokens do not reach across a place where no word goes on. *)
Lemma tokens_app (a b : str) :
  word_head b = false -> tokens (a ++ b) = tokens a ++ tokens b.
Proof.
  intros Hb. induction a as [|c a IH]; [done|].
  cbn [app tokens]. rewrite IH, (word_head_app a b Hb).
  destruct (isspace c); [done|]. destruct (is_punct c); [done|].
  destruct (word_head a) eqn:Ha; [|done].
  apply word_head_tokens in Ha. by destruct (tokens a).
Qed.

Lemma word_head_space (c : N) (s : str) :
  isspace c = true -> word_head (c :: s) = false.
Proof. intros H. unfold word_head, is_word. by rewrite H. Qed.

Lemma drop_while_split (f : N -> bool) (s : str) :
  exists w, forallb f w = true /\ s = w ++ drop_while f s.
Proof.
  induction s as [|c s (w & Hw & IH)]; [by exists []|].
  cbn [drop_while]. destruct (f c) eqn:Hc; [|by exists []].
  exists (c :: w). split; [simpl; by rewrite Hc|]. simpl. by rewrite <- IH.
Qed.

Lemma tokens_rstrip (s : str) : tokens (rstrip s) = tokens s.
Proof.
  unfold rstrip.
  destruct (drop_while_split isspace (rev s)) as (w & Hw & Hs).
  apply (f_equal (@rev N)) in Hs. rewrite rev_involutive, rev_app_distr in Hs.
  rewrite Hs at 2.
  assert (forallb isspace (rev w) = true) as Hr.
  { apply forallb_forall. intros c Hc. apply in_rev in Hc.
    by apply (proj1 (forallb_forall _ _) Hw). }
  rewrite tokens_app, (tokens_blank _ Hr), app_nil_r; [done|].
  destruct (rev w) as [|c w'] eqn:E; [done|].
  apply word_head_space. simpl in Hr. by apply andb_true_iff in Hr as [? _].
Qed.

Lemma tokens_strip (s : str) : tokens (strip s) = tokens s.
Proof.
  unfold strip, lstrip. by rewrite tokens_rstrip, tokens_drop_while.
Qed.

Lemma tokens_join (c : N) (parts : list str) :
  isspace c = true ->
  tokens (join [c] parts) = concat (List.map tokens parts).
Proof.
  intros Hc. induction parts as [|x rest IH]; [done|].
  destruct rest as [|y rest].
  - simpl. by rewrite app_nil_r.
  - change (join [c] (x :: y :: rest))
      with (x ++ c :: join [c] (y :: rest)).
    rewrite tokens_app by (by apply word_head_space).
    rewrite tokens_space by done. by rewrite IH.
Qed.

Lemma tokens_cons_eq (c : N) (s out : str) :
  tokens out = tokens s -> word_head out = word_head s ->
  tokens (c :: out) = tokens (c :: s).
Proof. intros Ht Hw. cbn [tokens]. by rewrite Ht, Hw. Qed.

Lemma tokens_ws_run (s : str) :
  tokens (re_sub ws_run s) = tokens s /\
  word_head (re_sub ws_run s) = word_head s.
Proof.
  apply (re_sub_ind ws_run ws_run_shrinks
           (fun s out => tokens out = tokens s /\ word_head out = word_head s)).
  - intros s0 repl rest Hm [IHt IHw]. unfold ws_run in Hm.
    destruct s0 as [|c s0]; [done|].
    destruct (isspace c) eqn:Hc; [|done]. injection Hm as <- <-.
    change ([SP] ++ re_sub ws_run (drop_while isspace s0))
      with (SP :: re_sub ws_run (drop_while isspace s0)).
    rewrite !tokens_space, IHt, tokens_drop_while by done.
    by rewrite !word_head_space.
  - done.
  - intros c s0 _ [IHt IHw]. split; [by apply tokens_cons_eq|done].
Qed.

Lemma word_head_before_punct (s : str) (c : N) (s1 : str) :
  drop_while isspace s = c :: s1 -> is_punct c = true -> word_head s = false.
Proof.
  intros Hd Hc. destruct s as [|d s]; [done|]. cbn [drop_while] in Hd.
  unfold word_head, is_word.
  destruct (isspace d) eqn:E; [done|]. injection Hd as -> _.
  by rewrite Hc.
Qed.

Lemma tokens_tight_punct (s : str) :
  tokens (re_sub tight_punct s) = tokens s /\
  word_head (re_sub tight_punct s) = word_head s.
Proof.
  apply (re_sub_ind tight_punct tight_punct_shrinks
           (fun s out => tokens out = tokens s /\ word_head out = word_head s)).
  - intros s0 repl rest Hm [IHt IHw]. unfold tight_punct in Hm.
    destruct (drop_while isspace s0) as [|c s1] eqn:Hd; [done|].
    destruct (is_punct c) eqn:Hc; [|done]. injection Hm as <- <-.
    change ([c] ++ re_sub tight_punct (drop_while isspace s1))
      with (c :: re_sub tight_punct (drop_while isspace s1)).
    split.
    + rewrite <- (tokens_drop_while s0), Hd. cbn [tokens].
      rewrite (is_punct_not_space c Hc), Hc, IHt.
      by rewrite tokens_drop_while.
    + rewrite (word_head_before_punct s0 c s1 Hd Hc).
      unfold word_head, is_word. by rewrite Hc, andb_false_r.
  - done.
  - intros c s0 _ [IHt IHw]. split; [by apply tokens_cons_eq|done].
Qed.

(** Minification keeps the tokens. *)
Lemma tokens_minify (line : str) : tokens (minify_cpp_line line) = tokens line.
Proof.
  unfold minify_cpp_line.
  rewrite (proj1 (tokens_tight_punct _)). apply tokens_ws_run.
Qed.

(** C7, amended. The output of the [single_line] style and the output
    of the [none] style hold the same sequence of tokens, when a text
    is cut into tokens at whitespace and each of the characters
    [; { } ( ) , < > = [ ]], around which minification removes the
    whitespace, is a token of its own.  So the two outputs also hold
    the same sequence of non-whitespace characters: minification and
    joining by spaces remove or change only whitespace, and never the
    whitespace between two words. *)
Theorem single_line_keeps_tokens (max_chars : Z) (flattened_content : str) :
  tokens (rendered (lit "single_line") max_chars flattened_content)
  = tokens (rendered (lit "none") max_chars flattened_content) /\
  remove_ws (rendered (lit "single_line") max_chars flattened_content)
  = remove_ws (rendered (lit "none") max_chars flattened_content).
Proof.
  split; [|apply single_line_keeps_non_whitespace].
  unfold rendered. rewrite !tokens_strip. unfold final_content.
  destruct (classified flattened_content) as [directives code_lines].
  destruct code_lines as [|ln code_lines]; [done|].
  change ([LF] ++ ?x) with (LF :: x).
  rewrite !tokens_app by (by apply word_head_space).
  f_equal. rewrite !tokens_space by done. unfold code_block.
  change (str_eqb (lit "single_line") (lit "single_line")) with true.
  change (str_eqb (lit "none") (lit "single_line")) with false.
  change (str_eqb (lit "none") (lit "multiline")) with false.
  cbv iota. rewrite !tokens_join by done.
  rewrite List.map_map. f_equal. apply List.map_ext. intros l.
  apply tokens_minify.
Qed.
